(** * Cypher IR lowering passes of graphql-compiler

    A shallow embedding of
    [graphql_compiler/compiler/ir_lowering_cypher/ir_lowering.py]:
    the four lowering passes that run between the front end and the
    Cypher code generator, together with the block, expression and
    location model they operate on. *)

From stdpp Require Import gmap strings list.

Local Open Scope Z_scope.

(** ** Locations *)

(** Modelled from the spec: [compiler/helpers.py] ([Location],
    [FoldScopeLocation]) is not among the source files.  A location is
    an identifier of a traversal position that may be qualified by a field
    name; a fold-scope location is a distinguished kind of location. *)
Inductive Location : Type :=
  | VertexLocation (query_path : string) (field : option string)
  | FoldScopeLocation (fold_path : string) (field : option string).

(** Modelled from the spec: [navigate_to_field] produces the field-qualified
    identifier derived from a location. *)
Definition navigate_to_field (location : Location) (field_name : string) : Location :=
  match location with
  | VertexLocation p _ => VertexLocation p (Some field_name)
  | FoldScopeLocation p _ => FoldScopeLocation p (Some field_name)
  end.

(** Modelled from the spec: the position a (possibly field-qualified)
    location belongs to. *)
Definition at_vertex (location : Location) : Location :=
  match location with
  | VertexLocation p _ => VertexLocation p None
  | FoldScopeLocation p _ => FoldScopeLocation p None
  end.

Definition location_field (location : Location) : option string :=
  match location with
  | VertexLocation _ f | FoldScopeLocation _ f => f
  end.

(** [isinstance(location, FoldScopeLocation)] *)
Definition is_fold_scope_location (location : Location) : bool :=
  match location with
  | FoldScopeLocation _ _ => true
  | VertexLocation _ _ => false
  end.

#[global] Instance Location_eq_dec : EqDecision Location.
Proof. solve_decision. Defined.

Definition Location_to_tuple (l : Location) : bool * string * option string :=
  match l with
  | VertexLocation p f => (false, p, f)
  | FoldScopeLocation p f => (true, p, f)
  end.

Definition Location_of_tuple (t : bool * string * option string) : Location :=
  match t with
  | (false, p, f) => VertexLocation p f
  | (true, p, f) => FoldScopeLocation p f
  end.

#[global] Instance Location_countable : Countable Location.
Proof.
  apply (inj_countable' Location_to_tuple Location_of_tuple).
  by intros [].
Defined.

(** ** Expressions *)

(** Modelled from the spec: [compiler/expressions.py] is not among the
    source files.  The three field variants are the ones the passes
    inspect, with the attributes the passes read ([field_name],
    [field_type], the location); [Literal] and [BinaryComposition] stand
    for the leaves and inner nodes of an expression tree. *)
Inductive Expression : Type :=
  | Literal (value : string)
  | LocalField (field_name : string) (field_type : string)
  | ContextField (location : Location) (field_type : string)
  | FoldedContextField (fold_scope_location : Location) (field_type : string)
  | BinaryComposition (operator : string) (left right : Expression).

#[global] Instance Expression_eq_dec : EqDecision Expression.
Proof. solve_decision. Defined.

(** Modelled from the spec (4.1): the rewrite function is applied to every
    expression of the tree, children before their parent. *)
Fixpoint visit_and_update (visitor_fn : Expression -> Expression) (e : Expression)
  : Expression :=
  match e with
  | BinaryComposition op l r =>
      visitor_fn (BinaryComposition op (visit_and_update visitor_fn l)
                                       (visit_and_update visitor_fn r))
  | _ => visitor_fn e
  end.

(** ** Blocks *)

(** Modelled from the spec (section 3): [compiler/blocks.py] is not among
    the source files.  One constructor per block kind, with the
    attributes the passes read. *)
Inductive Block : Type :=
  | QueryRoot
  | Traverse (direction edge_name : string) (optional : bool)
  | Recurse (direction edge_name : string) (depth : nat)
  | Fold
  | Backtrack (location : Location)
  | MarkLocation (location : Location)
  | CoerceType (target_class : gset string)
  | Filter (predicate : Expression)
  | GlobalOperationsStart.

#[global] Instance Block_eq_dec : EqDecision Block.
Proof. solve_decision. Defined.

(** Modelled from the spec (4.1): every expression inside the block is
    rewritten; a block that holds no expression is returned unchanged. *)
Definition visit_and_update_expressions (visitor_fn : Expression -> Expression)
    (block : Block) : Block :=
  match block with
  | Filter predicate => Filter (visit_and_update visitor_fn predicate)
  | _ => block
  end.

(** ** Query metadata table *)

Record LocationInfo : Type := {
  type_name : string;              (* location_info.type.name *)
  optional_scopes_depth : Z
}.

(** Modelled from the spec (section 6): the metadata table is consumed
    read-only; it gives the facts recorded for each location and the map from
    revisit locations to their origins. *)
Record QueryMetadataTable : Type := {
  get_location_info : Location -> LocationInfo;
  revisit_origins : gmap Location Location
}.

(** ** Faults *)

Inductive AssertionError : Type :=
  | UnexpectedBlock        (* 'Expected only CoerceType and Filter blocks ...' *)
  | IllegalIRBlocks        (* 'Illegal IR blocks found. ...' *)
  | BlockCountChanged.     (* 'The number of IR blocks unexpectedly changed ...' *)

Inductive result (A : Type) : Type :=
  | Ok (a : A)
  | Raise (e : AssertionError).
Arguments Ok {A} a.
Arguments Raise {A} e.

#[global] Instance result_ret : MRet result := fun A a => Ok a.

#[global] Instance result_bind : MBind result := fun A B k r =>
  match r with
  | Ok a => k a
  | Raise e => Raise e
  end.

(** The call raised. *)
Definition is_raise {A} (r : result A) : Prop :=
  match r with Raise _ => True | Ok _ => False end.

(** ** Pass 1: [insert_explicit_type_bounds] *)

(** [isinstance(block, (Traverse, Fold, Recurse))] *)
Definition is_traversal (block : Block) : bool :=
  match block with
  | Traverse _ _ _ | Fold | Recurse _ _ _ => true
  | _ => false
  end.

(** Outcome of the inner [while] loop, which walks [ir_blocks] from
    [current_index + 1] on. *)
Inductive Lookup : Type :=
  | NextCoerceType                           (* next_coerce_type was set *)
  | NextMarkLocation (location : Location)   (* next_mark_location was set *)
  | Unexpected                               (* the [else] branch raised *)
  | Exhausted.                               (* lookup_index reached len(ir_blocks) *)

Fixpoint lookup_next (rest : list Block) : Lookup :=
  match rest with
  | [] => Exhausted
  | CoerceType _ :: _ => NextCoerceType
  | MarkLocation location :: _ => NextMarkLocation location
  | Filter _ :: rest' => lookup_next rest'
  | _ :: _ => Unexpected
  end.

(** The blocks appended right after a Traverse/Fold/Recurse block. *)
Definition type_bound_for (qmt : QueryMetadataTable) (rest : list Block)
  : result (list Block) :=
  match lookup_next rest with
  | NextCoerceType => Ok []
  | NextMarkLocation location =>
      let location_info := get_location_info qmt location in
      Ok [CoerceType {[ type_name location_info ]}]
  | Unexpected => Raise UnexpectedBlock
  | Exhausted => Raise IllegalIRBlocks
  end.

(** The outer [for] loop; [rest] is [ir_blocks[current_index + 1:]].  The
    blocks are read from left to right, so the fault of the earliest
    offending block is the one raised.  The argument
    [type_equivalence_hints] is not used by the function. *)
Fixpoint insert_explicit_type_bounds (ir_blocks : list Block)
    (qmt : QueryMetadataTable) : result (list Block) :=
  match ir_blocks with
  | [] => Ok []
  | block :: rest =>
      appended ← (if is_traversal block then type_bound_for qmt rest else Ok []);
      new_rest ← insert_explicit_type_bounds rest qmt;
      Ok (block :: appended ++ new_rest)
  end.

(** ** Pass 2: [remove_mark_location_after_optional_backtrack] *)

(** Modelled from the spec (4.3): [ir_lowering_common/location_renaming.py]
    is not among the source files.  The translation map from revisit
    locations to origin locations is the one the metadata table supplies. *)
Definition make_revisit_location_translations (qmt : QueryMetadataTable)
  : gmap Location Location :=
  revisit_origins qmt.

(** A reference to a revisit location is replaced by the origin, keeping the
    field the reference was qualified with. *)
Definition translate_location (location_translations : gmap Location Location)
    (location : Location) : Location :=
  match location_translations !! at_vertex location with
  | Some origin =>
      match location_field location with
      | Some f => navigate_to_field origin f
      | None => origin
      end
  | None => location
  end.

(** Modelled from the spec (4.3): the visitor substitutes any reference to a
    revisit location with its origin, and leaves every other expression as
    it is. *)
Definition make_location_rewriter_visitor_fn
    (location_translations : gmap Location Location) (expression : Expression)
  : Expression :=
  match expression with
  | ContextField location ty =>
      ContextField (translate_location location_translations location) ty
  | FoldedContextField location ty =>
      FoldedContextField (translate_location location_translations location) ty
  | _ => expression
  end.

(** [isinstance(block, MarkLocation) and block.location in location_translations] *)
Definition is_revisit_mark_location (location_translations : gmap Location Location)
    (block : Block) : bool :=
  match block with
  | MarkLocation location => bool_decide (is_Some (location_translations !! location))
  | _ => false
  end.

(** The [for] loop of the pass. *)
Fixpoint drop_revisits (location_translations : gmap Location Location)
    (visitor_fn : Expression -> Expression) (ir_blocks : list Block) : list Block :=
  match ir_blocks with
  | [] => []
  | block :: rest =>
      if is_revisit_mark_location location_translations block
      then drop_revisits location_translations visitor_fn rest
      else visit_and_update_expressions visitor_fn block
           :: drop_revisits location_translations visitor_fn rest
  end.

Definition remove_mark_location_after_optional_backtrack (ir_blocks : list Block)
    (qmt : QueryMetadataTable) : list Block :=
  let location_translations := make_revisit_location_translations qmt in
  let visitor_fn := make_location_rewriter_visitor_fn location_translations in
  drop_revisits location_translations visitor_fn ir_blocks.

(** ** Pass 3: [replace_local_fields_with_context_fields] *)

Definition visitor_func_base (location : Location) (expression : Expression)
  : Expression :=
  match expression with
  | LocalField field_name field_type =>
      let location_at_field := navigate_to_field location field_name in
      if is_fold_scope_location location
      then FoldedContextField location_at_field field_type
      else ContextField location_at_field field_type
  | _ => expression
  end.

(** The two lists the loop of the pass mutates. *)
Record RewriteState : Type := {
  rw_new_ir_blocks : list Block;
  rw_blocks_to_be_rewritten : list Block
}.

(** One iteration of the [for] loop. *)
Definition rewrite_step (st : RewriteState) (block : Block) : RewriteState :=
  match block with
  | MarkLocation location =>
      let visitor_fn := visitor_func_base location in
      {| rw_new_ir_blocks :=
           rw_new_ir_blocks st
           ++ map (visit_and_update_expressions visitor_fn) (rw_blocks_to_be_rewritten st)
           ++ [block];
         rw_blocks_to_be_rewritten := [] |}
  | _ =>
      {| rw_new_ir_blocks := rw_new_ir_blocks st;
         rw_blocks_to_be_rewritten := rw_blocks_to_be_rewritten st ++ [block] |}
  end.

Definition rewrite_init : RewriteState :=
  {| rw_new_ir_blocks := []; rw_blocks_to_be_rewritten := [] |}.

Definition replace_local_fields_with_context_fields (ir_blocks : list Block)
  : result (list Block) :=
  let st := fold_left rewrite_step ir_blocks rewrite_init in
  let new_ir_blocks := rw_new_ir_blocks st ++ rw_blocks_to_be_rewritten st in
  if bool_decide (length ir_blocks ≠ length new_ir_blocks)
  then Raise BlockCountChanged
  else Ok new_ir_blocks.

(** ** Pass 4: [move_filters_in_optional_locations_to_global_operations] *)

Record HoistState : Type := {
  mv_new_ir_blocks : list Block;
  mv_global_filters : list Block;
  within_optional_scope : bool
}.

Definition is_filter (block : Block) : bool :=
  match block with Filter _ => true | _ => false end.

Definition is_global_operations_start (block : Block) : bool :=
  match block with GlobalOperationsStart => true | _ => false end.

(** The [if]/[elif] chain of the loop body: the block to keep in place (if
    any), the pending global filters and the scope flag. *)
Definition hoist_branch (qmt : QueryMetadataTable) (st : HoistState) (block : Block)
  : option Block * list Block * bool :=
  if within_optional_scope st && is_filter block then
    (None, mv_global_filters st ++ [block], within_optional_scope st)
  else
    match block with
    | Traverse _ _ true =>
        (Some block, mv_global_filters st, true)
    | Backtrack location =>
        let location_info := get_location_info qmt location in
        (Some block, mv_global_filters st,
         bool_decide (optional_scopes_depth location_info > 0))
    | _ => (Some block, mv_global_filters st, within_optional_scope st)
    end.

(** One iteration of the [for] loop. *)
Definition hoist_step (qmt : QueryMetadataTable) (st : HoistState) (block : Block)
  : HoistState :=
  let '(new_block, global_filters, scope) := hoist_branch qmt st block in
  let new_ir_blocks :=
    match new_block with
    | Some b => mv_new_ir_blocks st ++ [b]
    | None => mv_new_ir_blocks st
    end in
  if is_global_operations_start block then
    {| mv_new_ir_blocks := new_ir_blocks ++ global_filters;
       mv_global_filters := [];
       within_optional_scope := scope |}
  else
    {| mv_new_ir_blocks := new_ir_blocks;
       mv_global_filters := global_filters;
       within_optional_scope := scope |}.

Definition hoist_init : HoistState :=
  {| mv_new_ir_blocks := []; mv_global_filters := []; within_optional_scope := false |}.

Definition move_filters_in_optional_locations_to_global_operations
    (ir_blocks : list Block) (qmt : QueryMetadataTable) : list Block :=
  mv_new_ir_blocks (fold_left (hoist_step qmt) ir_blocks hoist_init).

(** ** Notions used to state the properties of the passes *)

(** *** Type bounds *)

(** A CoerceType block already follows (skipping Filter blocks). *)
Definition has_type_bound (rest : list Block) : bool :=
  match lookup_next rest with
  | NextCoerceType => true
  | _ => false
  end.

(** Number of Traverse/Fold/Recurse blocks with no CoerceType of their own. *)
Fixpoint count_missing_type_bounds (ir_blocks : list Block) : nat :=
  match ir_blocks with
  | [] => 0%nat
  | block :: rest =>
      ((if is_traversal block && negb (has_type_bound rest) then 1 else 0)
       + count_missing_type_bounds rest)%nat
  end.

(** The block kinds on which the lookup of pass 1 raises. *)
Definition is_unexpected (block : Block) : bool :=
  match block with
  | CoerceType _ | MarkLocation _ | Filter _ => false
  | _ => true
  end.

(** [type_bounds_inserted qmt ir_blocks out]: [out] is [ir_blocks] with some
    CoerceType blocks added, each one right after a Traverse/Fold/Recurse
    block that is followed (over Filter blocks only) by a MarkLocation, and
    each one holding exactly the type name recorded for that location. *)
Inductive type_bounds_inserted (qmt : QueryMetadataTable)
  : list Block -> list Block -> Prop :=
  | tbi_nil : type_bounds_inserted qmt [] []
  | tbi_keep block rest out :
      type_bounds_inserted qmt rest out ->
      type_bounds_inserted qmt (block :: rest) (block :: out)
  | tbi_insert block filters location rest out :
      is_traversal block = true ->
      forallb is_filter filters = true ->
      type_bounds_inserted qmt (filters ++ MarkLocation location :: rest) out ->
      type_bounds_inserted qmt
        (block :: filters ++ MarkLocation location :: rest)
        (block :: CoerceType {[ type_name (get_location_info qmt location) ]} :: out).

(** *** Revisit locations *)

Definition count_revisit_mark_locations (location_translations : gmap Location Location)
    (ir_blocks : list Block) : nat :=
  length (List.filter (is_revisit_mark_location location_translations) ir_blocks).











(** *** Local fields *)

Fixpoint has_local_field (e : Expression) : bool :=
  match e with
  | LocalField _ _ => true
  | BinaryComposition _ l r => has_local_field l || has_local_field r
  | _ => false
  end.

Definition block_has_local_field (block : Block) : bool :=
  match block with
  | Filter predicate => has_local_field predicate
  | _ => false
  end.

Definition is_mark_location (block : Block) : bool :=
  match block with MarkLocation _ => true | _ => false end.

(** The rewriting of section 4.4 in the words of the specification: every
    [LocalField name] becomes a [ContextField] at [L.navigate_to_field name],
    or a [FoldedContextField] if [L] is a fold-scope location; nothing else
    changes. *)
Fixpoint resolve_local_fields (L : Location) (e : Expression) : Expression :=
  match e with
  | LocalField name ty =>
      match L with
      | FoldScopeLocation _ _ => FoldedContextField (navigate_to_field L name) ty
      | VertexLocation _ _ => ContextField (navigate_to_field L name) ty
      end
  | BinaryComposition op l r =>
      BinaryComposition op (resolve_local_fields L l) (resolve_local_fields L r)
  | _ => e
  end.

Definition resolve_block (L : Location) (block : Block) : Block :=
  match block with
  | Filter predicate => Filter (resolve_local_fields L predicate)
  | _ => block
  end.

Definition no_mark_location (blocks : list Block) : bool :=
  forallb (fun block => negb (is_mark_location block)) blocks.

(** The output of pass 3 as a function of the pending blocks and of the
    blocks still to be read. *)
Fixpoint rewrite_run (pending blocks : list Block) : list Block :=
  match blocks with
  | [] => pending
  | MarkLocation location :: rest =>
      map (visit_and_update_expressions (visitor_func_base location)) pending
      ++ MarkLocation location :: rewrite_run [] rest
  | block :: rest => rewrite_run (pending ++ [block]) rest
  end.

(** No block is pending after [prev]: it is empty or ends with a
    MarkLocation. *)
Definition ends_with_mark_location (prev : list Block) : bool :=
  match last prev with
  | Some block => is_mark_location block
  | None => true
  end.

(** *** Optional scopes *)

(** The scope flag after a block, given the flag before it. *)
Definition scope_step (qmt : QueryMetadataTable) (inside : bool) (block : Block) : bool :=
  match block with
  | Traverse _ _ true => true
  | Backtrack location =>
      bool_decide (optional_scopes_depth (get_location_info qmt location) > 0)
  | _ => inside
  end.

Definition scope_after (qmt : QueryMetadataTable) (inside : bool) (blocks : list Block)
  : bool :=
  fold_left (scope_step qmt) blocks inside.

(** The Filter blocks of [blocks] that lie inside an optional scope, in
    their order of appearance; [inside] is the flag before the first block. *)
Fixpoint hoisted (qmt : QueryMetadataTable) (inside : bool) (blocks : list Block)
  : list Block :=
  match blocks with
  | [] => []
  | block :: rest =>
      (if inside && is_filter block then [block] else [])
      ++ hoisted qmt (scope_step qmt inside block) rest
  end.

(** All the other blocks of [blocks], in their order of appearance. *)
Fixpoint kept (qmt : QueryMetadataTable) (inside : bool) (blocks : list Block)
  : list Block :=
  match blocks with
  | [] => []
  | block :: rest =>
      (if inside && is_filter block then [] else [block])
      ++ kept qmt (scope_step qmt inside block) rest
  end.

Definition no_global_operations_start (blocks : list Block) : bool :=
  forallb (fun block => negb (is_global_operations_start block)) blocks.

(** Blocks that neither change the scope flag nor are affected by it. *)
Definition is_inert (block : Block) : bool :=
  match block with
  | Filter _ | Backtrack _ | GlobalOperationsStart | Traverse _ _ true => false
  | _ => true
  end.

(** Section 3, invariant 1: a Traverse/Fold/Recurse block is followed,
    skipping only Filter and CoerceType blocks, by a MarkLocation. *)
Fixpoint reaches_mark_location (rest : list Block) : bool :=
  match rest with
  | Filter _ :: rest' | CoerceType _ :: rest' => reaches_mark_location rest'
  | MarkLocation _ :: _ => true
  | _ => false
  end.

Fixpoint legal_block_order (blocks : list Block) : bool :=
  match blocks with
  | [] => true
  | block :: rest =>
      (if is_traversal block then reaches_mark_location rest else true)
      && legal_block_order rest
  end.

(** Section 3, invariant 2. *)
Definition exactly_one_global_operations_start (blocks : list Block) : bool :=
  bool_decide (length (List.filter is_global_operations_start blocks) = 1%nat).

(** *** Optional scopes, read off the nesting of the blocks *)

(** The traversals that are open, innermost first; [true] stands for an
    optional Traverse.  A Traverse or a Recurse opens a traversal, and the
    Backtrack that matches it closes it. *)
Definition nesting_step (open : list bool) (block : Block) : list bool :=
  match block with
  | Traverse _ _ optional => optional :: open
  | Recurse _ _ _ => false :: open
  | Backtrack _ => tail open
  | _ => open
  end.

Definition nesting_after (open : list bool) (blocks : list Block) : list bool :=
  fold_left nesting_step blocks open.

(** Some optional Traverse is open: the net nesting is at least one. *)
Definition inside_optional_scope (open : list bool) : bool := existsb id open.

(** The block at index [k] lies between an optional Traverse and the
    Backtrack that matches it. *)
Definition in_optional_scope_at (blocks : list Block) (k : nat) : bool :=
  inside_optional_scope (nesting_after [] (take k blocks)).

(** The Filter blocks of [blocks] that lie between an optional Traverse and
    its matching Backtrack, in their order; [open] holds the traversals open
    before the first block. *)
Fixpoint optional_scope_filters (open : list bool) (blocks : list Block) : list Block :=
  match blocks with
  | [] => []
  | block :: rest =>
      (if inside_optional_scope open && is_filter block then [block] else [])
      ++ optional_scope_filters (nesting_step open block) rest
  end.

(** The other blocks of [blocks], in their order. *)
Fixpoint blocks_left_in_place (open : list bool) (blocks : list Block) : list Block :=
  match blocks with
  | [] => []
  | block :: rest =>
      (if inside_optional_scope open && is_filter block then [] else [block])
      ++ blocks_left_in_place (nesting_step open block) rest
  end.

(** The metadata table agrees with the nesting of the blocks: the location a
    Backtrack returns to has a positive optional-scope depth exactly when an
    optional Traverse is still open once the Backtrack has closed its
    traversal. *)
Fixpoint depths_agree_with_nesting (qmt : QueryMetadataTable) (open : list bool)
    (blocks : list Block) : bool :=
  match blocks with
  | [] => true
  | block :: rest =>
      match block with
      | Backtrack location =>
          bool_decide
            (bool_decide (optional_scopes_depth (get_location_info qmt location) > 0)
             = inside_optional_scope (tail open))
      | _ => true
      end
      && depths_agree_with_nesting qmt (nesting_step open block) rest
  end.

(** The first half of the hoisting property: each Filter that lies between
    an optional Traverse and its matching Backtrack is found in the output
    at a position after a GlobalOperationsStart block. *)
Definition optional_scope_filters_follow_global_start (qmt : QueryMetadataTable)
    (blocks : list Block) : Prop :=
  forall (k : nat) (p : Expression),
    blocks !! k = Some (Filter p) ->
    in_optional_scope_at blocks k = true ->
    exists i j : nat,
      move_filters_in_optional_locations_to_global_operations blocks qmt !! i
        = Some GlobalOperationsStart /\
      move_filters_in_optional_locations_to_global_operations blocks qmt !! j
        = Some (Filter p) /\
      (i < j)%nat.

(** The second half, read to the letter: each Filter that lies in no
    optional scope is found in the output at the index it has in the
    input. *)
Definition other_filters_keep_their_index (qmt : QueryMetadataTable)
    (blocks : list Block) : Prop :=
  forall (k : nat) (p : Expression),
    blocks !! k = Some (Filter p) ->
    in_optional_scope_at blocks k = false ->
    move_filters_in_optional_locations_to_global_operations blocks qmt !! k
    = Some (Filter p).

(** ** Example queries *)

Definition loc_A : Location := VertexLocation "Animal" None.
Definition loc_B : Location := VertexLocation "Animal.out_Animal_ParentOf" None.
Definition loc_C : Location :=
  VertexLocation "Animal.out_Animal_ParentOf.out_Animal_OfSpecies" None.
Definition loc_A_revisit : Location := VertexLocation "Animal@2" None.

(** [loc_A] is outside any optional scope, [loc_B] and [loc_C] are inside
    one; [loc_A_revisit] revisits [loc_A]. *)
Definition example_metadata : QueryMetadataTable :=
  {| get_location_info := fun location =>
       if bool_decide (at_vertex location = loc_B) then
         {| type_name := "Animal"; optional_scopes_depth := 1 |}
       else if bool_decide (at_vertex location = loc_C) then
         {| type_name := "Species"; optional_scopes_depth := 2 |}
       else
         {| type_name := "Animal"; optional_scopes_depth := 0 |};
     revisit_origins := {[ loc_A_revisit := loc_A ]} |}.

Definition name_filter : Block :=
  Filter (BinaryComposition "=" (LocalField "name" "String") (Literal "$wanted")).

(** A query with one optional traversal and a filter on its destination. *)
Definition example_blocks : list Block :=
  [ QueryRoot; MarkLocation loc_A;
    Traverse "out" "Animal_ParentOf" true; name_filter; MarkLocation loc_B;
    Backtrack loc_A; GlobalOperationsStart ].

(** The optional scope is still open at GlobalOperationsStart, and a Filter
    follows before the Backtrack that closes the scope. *)
Definition late_filter_blocks : list Block :=
  [ QueryRoot; MarkLocation loc_A;
    Traverse "out" "Animal_ParentOf" true; MarkLocation loc_B;
    GlobalOperationsStart;
    Filter (ContextField (navigate_to_field loc_B "name") "String");
    Backtrack loc_A ].

(** A Filter with a local field after the last MarkLocation. *)
Definition trailing_filter_blocks : list Block :=
  [ QueryRoot; MarkLocation loc_A; name_filter ].

(** A Backtrack to a revisit location. *)
Definition backtrack_to_revisit_blocks : list Block :=
  [ QueryRoot; MarkLocation loc_A;
    Traverse "out" "Animal_ParentOf" true; MarkLocation loc_B;
    Backtrack loc_A; MarkLocation loc_A_revisit;
    Traverse "out" "Animal_OfSpecies" false; MarkLocation loc_C;
    Backtrack loc_A_revisit; GlobalOperationsStart ].

(** No Traverse is optional, but the Backtrack returns to a location that
    the table records at depth 1. *)
Definition stray_backtrack_blocks : list Block :=
  [ QueryRoot; MarkLocation loc_A;
    Traverse "out" "Animal_ParentOf" false; MarkLocation loc_B;
    Backtrack loc_B;
    Filter (ContextField (navigate_to_field loc_B "name") "String");
    GlobalOperationsStart ].

(** A Filter in the optional scope, and one after the scope is closed. *)
Definition two_filter_blocks : list Block :=
  [ QueryRoot; MarkLocation loc_A;
    Traverse "out" "Animal_ParentOf" true;
    Filter (ContextField (navigate_to_field loc_B "name") "String");
    MarkLocation loc_B; Backtrack loc_A;
    Filter (ContextField (navigate_to_field loc_A "name") "String");
    GlobalOperationsStart ].




(** ** Further notions for the passes *)

(** The location of the first MarkLocation of [blocks], if any. *)
Fixpoint next_mark_location (blocks : list Block) : option Location :=
  match blocks with
  | [] => None
  | MarkLocation location :: _ => Some location
  | _ :: rest => next_mark_location rest
  end.

(** Each block resolved at the first MarkLocation found at or after it; a
    block that no MarkLocation follows is left as it is. *)
Fixpoint resolve_at_next_mark (blocks : list Block) : list Block :=
  match blocks with
  | [] => []
  | block :: rest =>
      match next_mark_location (block :: rest) with
      | Some L => resolve_block L block
      | None => block
      end :: resolve_at_next_mark rest
  end.

(** [after] stands where [before] stood: a Filter for a Filter, and any
    other block for itself. *)
Definition same_place (before after : Block) : Prop :=
  if is_filter before then is_filter after = true else after = before.

(** The blocks other than Filters, in their order. *)
Definition strip_filters (blocks : list Block) : list Block :=
  List.filter (fun block => negb (is_filter block)) blocks.

(** No block opens an optional scope: no Traverse is optional and no
    Backtrack returns to a location of positive optional-scope depth. *)
Definition no_optional_scope (qmt : QueryMetadataTable) (blocks : list Block) : bool :=
  forallb (fun block => negb (scope_step qmt false block)) blocks.

(** The table [example_metadata] with every optional-scope depth set to 0. *)
Definition flat_metadata : QueryMetadataTable :=
  {| get_location_info := fun location =>
       {| type_name := type_name (get_location_info example_metadata location);
          optional_scopes_depth := 0 |};
     revisit_origins := revisit_origins example_metadata |}.

(** * Schema helpers

    [graphql_compiler/schema/__init__.py] and
    [graphql_compiler/schema_transformation/merge_schemas.py]. *)

(** ** Field names *)

Definition OUTBOUND_EDGE_FIELD_PREFIX : string := "out_".
Definition INBOUND_EDGE_FIELD_PREFIX : string := "in_".

(** [field_name.startswith(...) or field_name.startswith(...)] *)
Definition is_vertex_field_name (field_name : string) : bool :=
  String.prefix OUTBOUND_EDGE_FIELD_PREFIX field_name
  || String.prefix INBOUND_EDGE_FIELD_PREFIX field_name.

Definition COUNT_META_FIELD_NAME : string := "_x_count".

(** ** Meta fields of an existing schema *)

(** The types of a schema as [insert_meta_fields_into_existing_schema]
    sees them: object types and interfaces have a dictionary of fields, the
    other types (scalars, enums, unions, ...) are passed over.  A field is
    represented by the name of its type. *)
Inductive GraphQLType : Type :=
  | GraphQLObjectType (fields : gmap string string)
  | GraphQLInterfaceType (fields : gmap string string)
  | GraphQLOtherType.

(** [get_query_type().name] and [get_type_map()], in iteration order. *)
Record GraphQLSchema : Type := {
  query_type_name : string;
  type_map : list (string * GraphQLType)
}.

(** [EXTENDED_META_FIELD_DEFINITIONS]: [_x_count] is a [GraphQLInt] field. *)
Definition EXTENDED_META_FIELD_DEFINITIONS : list (string * string) :=
  [ (COUNT_META_FIELD_NAME, "Int") ].

(** The inner [for] loop on one dictionary of fields.  The dictionary is
    changed in place, so the function returns it as it is left, and whether
    the loop ended ([true]) or raised its [AssertionError] ([false]). *)
Fixpoint add_meta_fields (definitions : list (string * string))
    (fields : gmap string string) : gmap string string * bool :=
  match definitions with
  | [] => (fields, true)
  | (meta_field_name, meta_field) :: rest =>
      if bool_decide (is_Some (fields !! meta_field_name)) then (fields, false)
      else add_meta_fields rest (<[ meta_field_name := meta_field ]> fields)
  end.

(** The body of the outer [for] loop for one entry of the type map. *)
Definition insert_meta_fields_into_type (root_type_name type_name : string)
    (type_obj : GraphQLType) : GraphQLType * bool :=
  if String.prefix "__" type_name || bool_decide (type_name = root_type_name) then
    (type_obj, true)
  else
    match type_obj with
    | GraphQLObjectType fields =>
        let '(new_fields, ended) :=
          add_meta_fields EXTENDED_META_FIELD_DEFINITIONS fields in
        (GraphQLObjectType new_fields, ended)
    | GraphQLInterfaceType fields =>
        let '(new_fields, ended) :=
          add_meta_fields EXTENDED_META_FIELD_DEFINITIONS fields in
        (GraphQLInterfaceType new_fields, ended)
    | GraphQLOtherType => (type_obj, true)
    end.

(** The outer [for] loop.  The types visited before a fault keep their new
    field: the function returns the type map as it is left, and whether the
    call returned ([true]) or raised ([false]). *)
Fixpoint insert_meta_fields_loop (root_type_name : string)
    (types : list (string * GraphQLType)) : list (string * GraphQLType) * bool :=
  match types with
  | [] => ([], true)
  | (type_name, type_obj) :: rest =>
      let '(new_type_obj, ended) :=
        insert_meta_fields_into_type root_type_name type_name type_obj in
      if ended then
        let '(new_rest, returned) := insert_meta_fields_loop root_type_name rest in
        ((type_name, new_type_obj) :: new_rest, returned)
      else ((type_name, new_type_obj) :: rest, false)
  end.

Definition insert_meta_fields_into_existing_schema (graphql_schema : GraphQLSchema)
  : GraphQLSchema * bool :=
  let root_type_name := query_type_name graphql_schema in
  let '(new_types, returned) :=
    insert_meta_fields_loop root_type_name (type_map graphql_schema) in
  ({| query_type_name := root_type_name; type_map := new_types |}, returned).

(** The types the function adds meta fields to. *)
Definition takes_meta_fields (root_type_name : string) (entry : string * GraphQLType) : bool :=
  negb (String.prefix "__" entry.1 || bool_decide (entry.1 = root_type_name))
  && match entry.2 with GraphQLOtherType => false | _ => true end.

Definition fields_of_type (type_obj : GraphQLType) : gmap string string :=
  match type_obj with
  | GraphQLObjectType fields | GraphQLInterfaceType fields => fields
  | GraphQLOtherType => ∅
  end.

(** The type with the [_x_count] field set. *)
Definition add_count_field (type_obj : GraphQLType) : GraphQLType :=
  match type_obj with
  | GraphQLObjectType fields =>
      GraphQLObjectType (<[ COUNT_META_FIELD_NAME := "Int" ]> fields)
  | GraphQLInterfaceType fields =>
      GraphQLInterfaceType (<[ COUNT_META_FIELD_NAME := "Int" ]> fields)
  | GraphQLOtherType => GraphQLOtherType
  end.

(** What a call that returns does to an entry of the type map. *)
Definition with_meta_fields (root_type_name : string) (entry : string * GraphQLType)
  : string * GraphQLType :=
  if takes_meta_fields root_type_name entry then (entry.1, add_count_field entry.2)
  else entry.

(** The entry takes meta fields and already has a field named [_x_count]. *)
Definition has_meta_field_already (root_type_name : string)
    (entry : string * GraphQLType) : bool :=
  takes_meta_fields root_type_name entry
  && bool_decide (is_Some (fields_of_type entry.2 !! COUNT_META_FIELD_NAME)).

(** ** Merging schemas *)

Inductive MergeError : Type :=
  | SchemaNameConflictError
  | MergeAssertionError.

Inductive merge_result (A : Type) : Type :=
  | Merged (a : A)
  | MergeRaise (e : MergeError).
Arguments Merged {A} a.
Arguments MergeRaise {A} e.

(** [frozenset((scalar_name1, scalar_name2))] is the set of the two names. *)
Definition _scalars_match (scalar_name1 scalar_name2 : string) : bool :=
  if bool_decide (scalar_name1 = scalar_name2) then true
  else
    let scalar_names : gset string := {[ scalar_name1; scalar_name2 ]} in
    if bool_decide (scalar_names = {[ "String"; "ID" ]})
       || bool_decide (scalar_names = {[ "Int"; "ID" ]})
    then true
    else false.

Section ProcessDefinitions.

(** The definition nodes of the GraphQL library are read through their
    name ([node.name.value]) and their printed form ([print_ast(node)])
    only; a document is the list of its definitions. *)
Context {Node : Type} (name_value : Node -> string) (print_ast : Node -> string).

Definition _process_directive_definition (directive : Node)
    (existing_directives : gmap string Node) (merged_schema_ast : list Node)
  : merge_result (gmap string Node * list Node) :=
  let directive_name := name_value directive in
  match existing_directives !! directive_name with
  | Some existing =>
      if bool_decide (print_ast directive = print_ast existing)
      then Merged (existing_directives, merged_schema_ast)
      else MergeRaise SchemaNameConflictError
  | None =>
      let new_definitions := merged_schema_ast ++ [directive] in
      Merged (<[ directive_name := directive ]> existing_directives, new_definitions)
  end.

Definition _process_scalar_definition (scalar : Node) (existing_scalars : gset string)
    (type_name_to_schema_id : gmap string string) (merged_schema_ast : list Node)
  : merge_result (gset string * list Node) :=
  let scalar_name := name_value scalar in
  if bool_decide (scalar_name ∈ existing_scalars) then
    Merged (existing_scalars, merged_schema_ast)
  else if bool_decide (is_Some (type_name_to_schema_id !! scalar_name)) then
    MergeRaise SchemaNameConflictError
  else
    let new_definitions := merged_schema_ast ++ [scalar] in
    Merged (existing_scalars ∪ {[ scalar_name ]}, new_definitions).

Definition _process_generic_type_definition (generic_type : Node) (schema_id : string)
    (existing_scalars : gset string) (type_name_to_schema_id : gmap string string)
    (merged_schema_ast : list Node)
  : merge_result (gmap string string * list Node) :=
  let type_name := name_value generic_type in
  if bool_decide (type_name ∈ existing_scalars) then
    MergeRaise SchemaNameConflictError
  else if bool_decide (is_Some (type_name_to_schema_id !! type_name)) then
    MergeRaise SchemaNameConflictError
  else
    let new_definitions := merged_schema_ast ++ [generic_type] in
    Merged (<[ type_name := schema_id ]> type_name_to_schema_id, new_definitions).

End ProcessDefinitions.

(** ** Edge fields *)

(** The nodes [_add_edge_field] builds and reads, with the attributes it
    sets: a type reference, a directive with string arguments, a field. *)
Inductive TypeNode : Type :=
  | NamedTypeNode (name : string)
  | ListTypeNode (type : TypeNode).

Record DirectiveNode : Type := {
  directive_node_name : string;
  directive_node_arguments : list (string * string)
}.

Record FieldDefinitionNode : Type := {
  field_node_name : string;
  field_node_arguments : list string;
  field_node_type : TypeNode;
  field_node_directives : list DirectiveNode
}.

(** The definitions that have fields.  [InputObjectTypeDefinitionNode]
    stands for a node that is neither an object type nor an interface. *)
Inductive TypeDefinitionNode : Type :=
  | ObjectTypeDefinitionNode (description : option string) (name : string)
      (directives : list DirectiveNode) (fields : list FieldDefinitionNode)
      (interfaces : list string)
  | InterfaceTypeDefinitionNode (description : option string) (name : string)
      (directives : list DirectiveNode) (fields : list FieldDefinitionNode)
  | InputObjectTypeDefinitionNode (description : option string) (name : string)
      (directives : list DirectiveNode) (fields : list FieldDefinitionNode).

Definition node_fields (node : TypeDefinitionNode) : list FieldDefinitionNode :=
  match node with
  | ObjectTypeDefinitionNode _ _ _ fields _
  | InterfaceTypeDefinitionNode _ _ _ fields
  | InputObjectTypeDefinitionNode _ _ _ fields => fields
  end.

Definition node_name (node : TypeDefinitionNode) : string :=
  match node with
  | ObjectTypeDefinitionNode _ name _ _ _
  | InterfaceTypeDefinitionNode _ name _ _
  | InputObjectTypeDefinitionNode _ name _ _ => name
  end.

(** The two directions, as the docstring of [_add_edge_field] gives them. *)
Definition OUTBOUND_EDGE_DIRECTION : string := "out".
Definition INBOUND_EDGE_DIRECTION : string := "in".

Definition _build_stitch_directive (source_field_name sink_field_name : string)
  : DirectiveNode :=
  {| directive_node_name := "stitch";
     directive_node_arguments :=
       [ ("source_field", source_field_name); ("sink_field", sink_field_name) ] |}.

Definition _add_edge_field (source_type_node : TypeDefinitionNode)
    (sink_type_name source_field_name sink_field_name edge_name direction : string)
  : merge_result TypeDefinitionNode :=
  let type_fields := node_fields source_type_node in
  if negb (bool_decide (direction = OUTBOUND_EDGE_DIRECTION)
           || bool_decide (direction = INBOUND_EDGE_DIRECTION)) then
    MergeRaise MergeAssertionError
  else
    let new_edge_field_name := String.append direction (String.append "_" edge_name) in
    if existsb (fun field => bool_decide (field_node_name field = new_edge_field_name))
         type_fields then
      MergeRaise SchemaNameConflictError
    else
      let new_edge_field_node :=
        {| field_node_name := new_edge_field_name;
           field_node_arguments := [];
           field_node_type := ListTypeNode (NamedTypeNode sink_type_name);
           field_node_directives :=
             [ _build_stitch_directive source_field_name sink_field_name ] |} in
      let new_type_fields := type_fields ++ [new_edge_field_node] in
      match source_type_node with
      | ObjectTypeDefinitionNode description name directives _ interfaces =>
          Merged (ObjectTypeDefinitionNode description name directives new_type_fields
                    interfaces)
      | InterfaceTypeDefinitionNode description name directives _ =>
          Merged (InterfaceTypeDefinitionNode description name directives new_type_fields)
      | InputObjectTypeDefinitionNode _ _ _ _ => MergeRaise MergeAssertionError
      end.

(** An example schema and an example type definition. *)
Definition example_schema : GraphQLSchema :=
  {| query_type_name := "RootSchemaQuery";
     type_map :=
       [ ("RootSchemaQuery", GraphQLObjectType {[ "Animal" := "Animal" ]});
         ("Animal", GraphQLObjectType {[ "name" := "String" ]});
         ("Entity", GraphQLInterfaceType {[ "uuid" := "ID" ]});
         ("String", GraphQLOtherType);
         ("__Schema", GraphQLObjectType {[ "types" := "__Type" ]}) ] |}.

Definition example_type_node : TypeDefinitionNode :=
  ObjectTypeDefinitionNode None "Animal" []
    [ {| field_node_name := "name"; field_node_arguments := [];
         field_node_type := NamedTypeNode "String"; field_node_directives := [] |} ]
    [ "Entity" ].

(** * Properties *)

(** ** The fault monad *)

Lemma bind_Ok_inv {A B} (r : result A) (k : A -> result B) (b : B) :
  (r ≫= k) = Ok b <-> exists a, r = Ok a /\ k a = Ok b.
Proof.
  destruct r as [a|e]; simpl; split.
  - intros H. exists a. split; [reflexivity | exact H].
  - intros (a' & Ha & Hk). injection Ha as ->. exact Hk.
  - discriminate.
  - intros (a' & Ha & _). discriminate.
Qed.

(** ** Pass 1 *)

Lemma lookup_next_filters (filters rest : list Block) :
  forallb is_filter filters = true ->
  lookup_next (filters ++ rest) = lookup_next rest.
Proof.
  induction filters as [|b filters IH]; simpl; [reflexivity |].
  intros [Hb Hfs]%andb_prop. destruct b; try discriminate. apply IH, Hfs.
Qed.

Lemma lookup_next_before_traversal (xs : list Block) (block : Block) (post : list Block) :
  is_traversal block = true ->
  lookup_next (xs ++ block :: post)
  = match lookup_next xs with
    | Exhausted => Unexpected
    | r => r
    end.
Proof.
  intros Hb. induction xs as [|x xs IH]; simpl.
  - destruct block; try discriminate; reflexivity.
  - destruct x; try reflexivity. exact IH.
Qed.

Lemma insert_cons_Ok (qmt : QueryMetadataTable) (block : Block) (rest out : list Block) :
  insert_explicit_type_bounds (block :: rest) qmt = Ok out <->
  exists appended new_rest,
    (if is_traversal block then type_bound_for qmt rest else Ok []) = Ok appended /\
    insert_explicit_type_bounds rest qmt = Ok new_rest /\
    out = block :: appended ++ new_rest.
Proof.
  simpl. rewrite bind_Ok_inv. split.
  - intros (appended & Happ & H). apply bind_Ok_inv in H as (new_rest & Hrest & H).
    injection H as <-. eauto.
  - intros (appended & new_rest & Happ & Hrest & ->).
    exists appended. split; [exact Happ |]. rewrite Hrest. reflexivity.
Qed.

Lemma insert_not_traversal (qmt : QueryMetadataTable) (block : Block) (rest : list Block) :
  is_traversal block = false ->
  insert_explicit_type_bounds (block :: rest) qmt
  = new_rest ← insert_explicit_type_bounds rest qmt; Ok (block :: new_rest).
Proof. intros Hb. simpl. rewrite Hb. reflexivity. Qed.

Lemma insert_filters (qmt : QueryMetadataTable) (filters rest : list Block) :
  forallb is_filter filters = true ->
  insert_explicit_type_bounds (filters ++ rest) qmt
  = new_rest ← insert_explicit_type_bounds rest qmt; Ok (filters ++ new_rest).
Proof.
  induction filters as [|b filters IH]; intros Hfs.
  - simpl. destruct (insert_explicit_type_bounds rest qmt); reflexivity.
  - simpl in Hfs. apply andb_prop in Hfs as [Hb Hfs].
    rewrite <- app_comm_cons, insert_not_traversal by (destruct b; done).
    rewrite IH by exact Hfs.
    destruct (insert_explicit_type_bounds rest qmt); reflexivity.
Qed.

Lemma type_bound_for_before_traversal (qmt : QueryMetadataTable)
    (xs : list Block) (block : Block) (post appended : list Block) :
  is_traversal block = true ->
  type_bound_for qmt (xs ++ block :: post) = Ok appended <->
  type_bound_for qmt xs = Ok appended.
Proof.
  intros Hb. unfold type_bound_for.
  rewrite (lookup_next_before_traversal xs block post Hb).
  destruct (lookup_next xs); split; intros H; try discriminate; exact H.
Qed.

(** A successful run splits at any Traverse/Fold/Recurse block: no lookup
    started before the block can step over it. *)
Lemma insert_split_at_traversal (qmt : QueryMetadataTable)
    (pre : list Block) (block : Block) (post out : list Block) :
  is_traversal block = true ->
  insert_explicit_type_bounds (pre ++ block :: post) qmt = Ok out <->
  exists out_pre out_block,
    insert_explicit_type_bounds pre qmt = Ok out_pre /\
    insert_explicit_type_bounds (block :: post) qmt = Ok out_block /\
    out = out_pre ++ out_block.
Proof.
  intros Hb. revert out. induction pre as [|x pre IH]; intros out.
  - simpl app. split.
    + intros H. exists [], out. done.
    + intros (out_pre & out_block & Hpre & Hblock & ->).
      injection Hpre as <-. exact Hblock.
  - rewrite <- app_comm_cons. rewrite !insert_cons_Ok. split.
    + intros (appended & new_rest & Happ & Hrest & ->).
      apply IH in Hrest as (out_pre & out_block & Hpre & Hblock & ->).
      exists (x :: appended ++ out_pre), out_block. split; [| split].
      * apply insert_cons_Ok. exists appended, out_pre. split; [| done].
        destruct (is_traversal x); [| exact Happ].
        apply (type_bound_for_before_traversal qmt pre block post appended Hb), Happ.
      * exact Hblock.
      * rewrite <- app_comm_cons, app_assoc. reflexivity.
    + intros (out_pre & out_block & Hpre & Hblock & ->).
      apply insert_cons_Ok in Hpre as (appended & new_pre & Happ & Hpre & ->).
      exists appended, (new_pre ++ out_block). split; [| split].
      * destruct (is_traversal x); [| exact Happ].
        apply (type_bound_for_before_traversal qmt pre block post appended Hb), Happ.
      * apply IH. eauto.
      * rewrite <- app_comm_cons, app_assoc. reflexivity.
Qed.

Lemma insert_raise_at_traversal (qmt : QueryMetadataTable)
    (pre : list Block) (block : Block) (post : list Block) :
  is_traversal block = true ->
  is_raise (type_bound_for qmt post) ->
  is_raise (insert_explicit_type_bounds (pre ++ block :: post) qmt).
Proof.
  intros Hb Hraise.
  destruct (insert_explicit_type_bounds (pre ++ block :: post) qmt) as [out|e] eqn:E;
    [| exact I].
  apply insert_split_at_traversal in E as (out_pre & out_block & _ & E & _); [| exact Hb].
  apply insert_cons_Ok in E as (appended & new_rest & Happ & _ & _).
  rewrite Hb in Happ. rewrite Happ in Hraise. exact Hraise.
Qed.

(** C3. For a Traverse, Fold or Recurse block followed by Filter blocks
    [filters]: if a CoerceType comes next, the pass succeeds exactly when it
    succeeds on the blocks before and after, and nothing is inserted; if a
    MarkLocation comes next, a CoerceType with that location's declared type
    is inserted right after the block, before [filters]; if any other kind
    of block comes next, or the sequence ends, the pass raises. *)
Theorem insert_explicit_type_bounds_at_traversal (qmt : QueryMetadataTable)
    (pre : list Block) (block : Block) (filters post : list Block) :
  is_traversal block = true ->
  forallb is_filter filters = true ->
  (forall target_class out,
     insert_explicit_type_bounds
       (pre ++ block :: filters ++ CoerceType target_class :: post) qmt = Ok out <->
     exists out_pre out_post,
       insert_explicit_type_bounds pre qmt = Ok out_pre /\
       insert_explicit_type_bounds post qmt = Ok out_post /\
       out = out_pre ++ block :: filters ++ CoerceType target_class :: out_post) /\
  (forall location out,
     insert_explicit_type_bounds
       (pre ++ block :: filters ++ MarkLocation location :: post) qmt = Ok out <->
     exists out_pre out_post,
       insert_explicit_type_bounds pre qmt = Ok out_pre /\
       insert_explicit_type_bounds post qmt = Ok out_post /\
       out = out_pre ++ block
               :: CoerceType {[ type_name (get_location_info qmt location) ]}
               :: filters ++ MarkLocation location :: out_post) /\
  (forall other,
     is_unexpected other = true ->
     is_raise (insert_explicit_type_bounds (pre ++ block :: filters ++ other :: post) qmt)) /\
  is_raise (insert_explicit_type_bounds (pre ++ block :: filters) qmt).
Proof.
  intros Hb Hfs. repeat split.
  - intros H. apply insert_split_at_traversal in H as (out_pre & out_block & Hpre & H & ->);
      [| exact Hb].
    apply insert_cons_Ok in H as (appended & new_rest & Happ & Hrest & ->).
    rewrite Hb in Happ. unfold type_bound_for in Happ.
    rewrite lookup_next_filters in Happ by exact Hfs. simpl in Happ.
    injection Happ as <-.
    rewrite insert_filters, insert_not_traversal in Hrest by done.
    destruct (insert_explicit_type_bounds post qmt) as [out_post|] eqn:Epost;
      [| discriminate].
    simpl in Hrest. injection Hrest as <-. eauto.
  - intros (out_pre & out_post & Hpre & Hpost & ->).
    apply insert_split_at_traversal; [exact Hb |].
    eexists _, _. split; [exact Hpre |]. split; [| reflexivity].
    apply insert_cons_Ok. exists [], (filters ++ CoerceType target_class :: out_post).
    rewrite Hb. unfold type_bound_for. rewrite lookup_next_filters by exact Hfs.
    split; [reflexivity |]. split; [| reflexivity].
    rewrite insert_filters, insert_not_traversal, Hpost by done. reflexivity.
  - intros H. apply insert_split_at_traversal in H as (out_pre & out_block & Hpre & H & ->);
      [| exact Hb].
    apply insert_cons_Ok in H as (appended & new_rest & Happ & Hrest & ->).
    rewrite Hb in Happ. unfold type_bound_for in Happ.
    rewrite lookup_next_filters in Happ by exact Hfs. simpl in Happ.
    injection Happ as <-.
    rewrite insert_filters, insert_not_traversal in Hrest by done.
    destruct (insert_explicit_type_bounds post qmt) as [out_post|] eqn:Epost;
      [| discriminate].
    simpl in Hrest. injection Hrest as <-. eauto.
  - intros (out_pre & out_post & Hpre & Hpost & ->).
    apply insert_split_at_traversal; [exact Hb |].
    eexists _, _. split; [exact Hpre |]. split; [| reflexivity].
    apply insert_cons_Ok. eexists [_], (filters ++ MarkLocation location :: out_post).
    rewrite Hb. unfold type_bound_for. rewrite lookup_next_filters by exact Hfs.
    split; [reflexivity |]. split; [| reflexivity].
    rewrite insert_filters, insert_not_traversal, Hpost by done. reflexivity.
  - intros other Hother. apply insert_raise_at_traversal; [exact Hb |].
    unfold type_bound_for. rewrite lookup_next_filters by exact Hfs.
    destruct other; try discriminate; exact I.
  - apply insert_raise_at_traversal; [exact Hb |].
    unfold type_bound_for.
    rewrite <- (app_nil_r filters), lookup_next_filters by exact Hfs. exact I.
Qed.

Lemma insert_explicit_type_bounds_at_traversal_witness :
  is_traversal (Traverse "out" "Animal_ParentOf" true) = true /\
  forallb is_filter [name_filter] = true /\
  (forall out,
     insert_explicit_type_bounds
       ([QueryRoot; MarkLocation loc_A]
          ++ Traverse "out" "Animal_ParentOf" true
          :: [name_filter] ++ MarkLocation loc_B :: [Backtrack loc_A; GlobalOperationsStart])
       example_metadata = Ok out <->
     exists out_pre out_post,
       insert_explicit_type_bounds [QueryRoot; MarkLocation loc_A] example_metadata
         = Ok out_pre /\
       insert_explicit_type_bounds [Backtrack loc_A; GlobalOperationsStart] example_metadata
         = Ok out_post /\
       out = out_pre ++ Traverse "out" "Animal_ParentOf" true
               :: CoerceType {[ type_name (get_location_info example_metadata loc_B) ]}
               :: [name_filter] ++ MarkLocation loc_B :: out_post).
Proof.
  split; [reflexivity |]. split; [reflexivity |].
  intros out.
  apply (insert_explicit_type_bounds_at_traversal example_metadata
           [QueryRoot; MarkLocation loc_A] (Traverse "out" "Animal_ParentOf" true)
           [name_filter] [Backtrack loc_A; GlobalOperationsStart]);
    reflexivity.
Defined.

Lemma lookup_next_insert (qmt : QueryMetadataTable) (rest out : list Block) :
  insert_explicit_type_bounds rest qmt = Ok out ->
  lookup_next out = lookup_next rest.
Proof.
  revert out. induction rest as [|x rest IH]; intros out H.
  - injection H as <-. reflexivity.
  - apply insert_cons_Ok in H as (appended & new_rest & Happ & Hrest & ->).
    destruct x; try reflexivity.
    simpl in Happ. injection Happ as <-. simpl. apply IH, Hrest.
Qed.

(** C4. On every input on which the pass succeeds, running it again on its
    own output succeeds and returns that output. *)
Theorem insert_explicit_type_bounds_idempotent (qmt : QueryMetadataTable)
    (ir_blocks out : list Block) :
  insert_explicit_type_bounds ir_blocks qmt = Ok out ->
  insert_explicit_type_bounds out qmt = Ok out.
Proof.
  revert out. induction ir_blocks as [|x rest IH]; intros out H.
  - injection H as <-. reflexivity.
  - apply insert_cons_Ok in H as (appended & new_rest & Happ & Hrest & ->).
    specialize (IH new_rest Hrest).
    destruct (is_traversal x) eqn:Hx.
    + unfold type_bound_for in Happ.
      destruct (lookup_next rest) eqn:Hnext; try discriminate;
        injection Happ as <-; simpl app; apply insert_cons_Ok.
      * exists [], new_rest. rewrite Hx. unfold type_bound_for.
        rewrite (lookup_next_insert qmt rest new_rest Hrest), Hnext. done.
      * eexists [], _. rewrite Hx. split; [reflexivity |]. split; [| reflexivity].
        rewrite insert_not_traversal by reflexivity. rewrite IH. reflexivity.
    + injection Happ as <-. simpl app.
      rewrite insert_not_traversal, IH by exact Hx. reflexivity.
Qed.

Lemma insert_explicit_type_bounds_idempotent_witness :
  exists out,
    insert_explicit_type_bounds example_blocks example_metadata = Ok out /\
    insert_explicit_type_bounds out example_metadata = Ok out.
Proof.
  eexists. split; [reflexivity |].
  apply (insert_explicit_type_bounds_idempotent example_metadata example_blocks).
  reflexivity.
Defined.

Lemma lookup_next_mark_location_inv (rest : list Block) (location : Location) :
  lookup_next rest = NextMarkLocation location ->
  exists filters tl,
    rest = filters ++ MarkLocation location :: tl /\ forallb is_filter filters = true.
Proof.
  induction rest as [|x rest IH]; [discriminate |].
  destruct x; try discriminate; simpl.
  - intros [= ->]. exists [], rest. done.
  - intros H. destruct (IH H) as (filters & tl & -> & Hfs).
    exists (Filter predicate :: filters), tl. done.
Qed.

Lemma type_bounds_inserted_sublist (qmt : QueryMetadataTable) (ir_blocks out : list Block) :
  type_bounds_inserted qmt ir_blocks out -> ir_blocks `sublist_of` out.
Proof.
  induction 1 as [| block rest out _ IH | block filters location rest out _ _ _ IH].
  - constructor.
  - by apply sublist_skip.
  - by apply sublist_skip, sublist_cons.
Qed.

(** C10. Whenever the pass succeeds, its output is the input with CoerceType
    blocks added, each holding exactly the type name recorded for the
    location of the MarkLocation that follows; the blocks of the input are
    all there, unmodified and in their order. *)
Theorem insert_explicit_type_bounds_inserted (qmt : QueryMetadataTable)
    (ir_blocks out : list Block) :
  insert_explicit_type_bounds ir_blocks qmt = Ok out ->
  type_bounds_inserted qmt ir_blocks out /\ ir_blocks `sublist_of` out.
Proof.
  intros H.
  assert (Hins : type_bounds_inserted qmt ir_blocks out).
  { revert out H. induction ir_blocks as [|x rest IH]; intros out H.
    - injection H as <-. constructor.
    - apply insert_cons_Ok in H as (appended & new_rest & Happ & Hrest & ->).
      specialize (IH new_rest Hrest).
      destruct (is_traversal x) eqn:Hx.
      + unfold type_bound_for in Happ.
        destruct (lookup_next rest) eqn:Hnext; try discriminate; injection Happ as <-.
        * by apply tbi_keep.
        * apply lookup_next_mark_location_inv in Hnext as (filters & tl & -> & Hfs).
          by apply tbi_insert.
      + injection Happ as <-. by apply tbi_keep. }
  split; [exact Hins |]. eapply type_bounds_inserted_sublist, Hins.
Qed.

Lemma insert_explicit_type_bounds_inserted_witness :
  exists out,
    insert_explicit_type_bounds example_blocks example_metadata = Ok out /\
    type_bounds_inserted example_metadata example_blocks out /\
    example_blocks `sublist_of` out.
Proof.
  eexists. split; [reflexivity |].
  apply (insert_explicit_type_bounds_inserted example_metadata example_blocks).
  reflexivity.
Defined.

Lemma insert_length (qmt : QueryMetadataTable) (ir_blocks out : list Block) :
  insert_explicit_type_bounds ir_blocks qmt = Ok out ->
  length out = (length ir_blocks + count_missing_type_bounds ir_blocks)%nat.
Proof.
  revert out. induction ir_blocks as [|x rest IH]; intros out H.
  - injection H as <-. reflexivity.
  - apply insert_cons_Ok in H as (appended & new_rest & Happ & Hrest & ->).
    specialize (IH new_rest Hrest). simpl. rewrite length_app, IH.
    unfold has_type_bound. destruct (is_traversal x).
    + unfold type_bound_for in Happ.
      destruct (lookup_next rest); try discriminate; injection Happ as <-; simpl; lia.
    + injection Happ as <-. simpl. lia.
Qed.

(** ** Pass 2 *)

Lemma drop_revisits_length (m : gmap Location Location)
    (visitor_fn : Expression -> Expression) (ir_blocks : list Block) :
  (length (drop_revisits m visitor_fn ir_blocks) + count_revisit_mark_locations m ir_blocks
   = length ir_blocks)%nat.
Proof.
  unfold count_revisit_mark_locations.
  induction ir_blocks as [|x rest IH]; simpl; [reflexivity |].
  destruct (is_revisit_mark_location m x); simpl; lia.
Qed.

(** ** Pass 3 *)

Lemma rewrite_fold_run (ir_blocks : list Block) (st : RewriteState) :
  rw_new_ir_blocks (fold_left rewrite_step ir_blocks st)
    ++ rw_blocks_to_be_rewritten (fold_left rewrite_step ir_blocks st)
  = rw_new_ir_blocks st ++ rewrite_run (rw_blocks_to_be_rewritten st) ir_blocks.
Proof.
  revert st. induction ir_blocks as [|x rest IH]; intros st; [reflexivity |].
  simpl fold_left. rewrite IH.
  destruct x; simpl; try reflexivity.
  rewrite <- !app_assoc. reflexivity.
Qed.

Lemma rewrite_run_length (ir_blocks pending : list Block) :
  length (rewrite_run pending ir_blocks) = (length pending + length ir_blocks)%nat.
Proof.
  revert pending. induction ir_blocks as [|x rest IH]; intros pending; simpl; [lia |].
  destruct x; rewrite ?IH, ?length_app, ?length_map; simpl; rewrite ?IH; simpl; lia.
Qed.

(** The length check at the end of the pass never fails. *)
Lemma replace_local_fields_Ok (ir_blocks : list Block) :
  replace_local_fields_with_context_fields ir_blocks = Ok (rewrite_run [] ir_blocks).
Proof.
  unfold replace_local_fields_with_context_fields.
  rewrite rewrite_fold_run. simpl.
  rewrite bool_decide_eq_false_2; [reflexivity |].
  rewrite rewrite_run_length. simpl. intros H. apply H. reflexivity.
Qed.

(** C5. Pass 1, when it succeeds, adds one block for each
    Traverse/Fold/Recurse block that had no CoerceType; pass 2 removes one
    block for each MarkLocation whose location is a key of the translation
    map; pass 3 returns as many blocks as it was given. *)
Theorem block_count_laws (qmt : QueryMetadataTable) (ir_blocks : list Block) :
  (forall out,
     insert_explicit_type_bounds ir_blocks qmt = Ok out ->
     length out = (length ir_blocks + count_missing_type_bounds ir_blocks)%nat /\
     (length ir_blocks <= length out)%nat) /\
  length (remove_mark_location_after_optional_backtrack ir_blocks qmt)
  = (length ir_blocks
     - count_revisit_mark_locations (make_revisit_location_translations qmt) ir_blocks)%nat /\
  (exists out,
     replace_local_fields_with_context_fields ir_blocks = Ok out /\
     length out = length ir_blocks).
Proof.
  split; [| split].
  - intros out H. apply insert_length in H. lia.
  - unfold remove_mark_location_after_optional_backtrack.
    pose proof (drop_revisits_length (make_revisit_location_translations qmt)
                  (make_location_rewriter_visitor_fn (make_revisit_location_translations qmt))
                  ir_blocks).
    lia.
  - exists (rewrite_run [] ir_blocks). split; [apply replace_local_fields_Ok |].
    apply rewrite_run_length.
Qed.

Lemma block_count_laws_witness :
  exists out,
    insert_explicit_type_bounds example_blocks example_metadata = Ok out /\
    length out = (length example_blocks + count_missing_type_bounds example_blocks)%nat /\
    (length example_blocks <= length out)%nat.
Proof.
  eexists. split; [reflexivity |].
  apply (block_count_laws example_metadata example_blocks). reflexivity.
Defined.

Lemma visit_visitor_func_base (L : Location) (e : Expression) :
  visit_and_update (visitor_func_base L) e = resolve_local_fields L e.
Proof.
  induction e as [| | | | op l IHl r IHr]; simpl; try reflexivity.
  - destruct L; reflexivity.
  - rewrite IHl, IHr. reflexivity.
Qed.

Lemma visit_block_visitor_func_base (L : Location) (block : Block) :
  visit_and_update_expressions (visitor_func_base L) block = resolve_block L block.
Proof. destruct block; simpl; try reflexivity. by rewrite visit_visitor_func_base. Qed.

Lemma resolve_local_fields_id (L : Location) (e : Expression) :
  has_local_field e = false -> resolve_local_fields L e = e.
Proof.
  induction e as [| | | | op l IHl r IHr]; simpl; try done.
  intros [Hl Hr]%orb_false_elim. by rewrite IHl, IHr.
Qed.

Lemma resolve_local_fields_none (L : Location) (e : Expression) :
  has_local_field (resolve_local_fields L e) = false.
Proof.
  induction e as [| | | | op l IHl r IHr]; simpl; try reflexivity.
  - destruct L; reflexivity.
  - by rewrite IHl, IHr.
Qed.

Lemma resolve_block_none (L : Location) (block : Block) :
  block_has_local_field (resolve_block L block) = false.
Proof. destruct block; simpl; try reflexivity. apply resolve_local_fields_none. Qed.

Lemma rewrite_run_no_mark (pending blocks : list Block) :
  no_mark_location blocks = true -> rewrite_run pending blocks = pending ++ blocks.
Proof.
  unfold no_mark_location. revert pending.
  induction blocks as [|x rest IH]; intros pending H; simpl.
  - by rewrite app_nil_r.
  - simpl in H. apply andb_prop in H as [Hx Hrest].
    destruct x; try discriminate; rewrite IH by exact Hrest;
      by rewrite <- app_assoc.
Qed.

Lemma rewrite_run_at_mark (pending buffered : list Block) (L : Location) (rest : list Block) :
  no_mark_location buffered = true ->
  rewrite_run pending (buffered ++ MarkLocation L :: rest)
  = map (resolve_block L) (pending ++ buffered) ++ MarkLocation L :: rewrite_run [] rest.
Proof.
  unfold no_mark_location. revert pending.
  induction buffered as [|x buffered IH]; intros pending H.
  - simpl. rewrite app_nil_r. f_equal.
    apply map_ext. intros b. apply visit_block_visitor_func_base.
  - simpl in H. apply andb_prop in H as [Hx Hrest].
    destruct x; try discriminate; simpl; rewrite IH by exact Hrest;
      by rewrite <- app_assoc.
Qed.

Lemma rewrite_run_after_mark (prev pending : list Block) (L : Location) (rest : list Block) :
  rewrite_run pending (prev ++ MarkLocation L :: rest)
  = rewrite_run pending (prev ++ [MarkLocation L]) ++ rewrite_run [] rest.
Proof.
  revert pending. induction prev as [|x prev IH]; intros pending.
  - simpl. rewrite <- app_assoc. reflexivity.
  - destruct x; simpl; rewrite IH; try reflexivity.
    rewrite <- app_assoc. reflexivity.
Qed.

Lemma rewrite_run_prefix (prev rest : list Block) :
  ends_with_mark_location prev = true ->
  rewrite_run [] (prev ++ rest) = rewrite_run [] prev ++ rewrite_run [] rest.
Proof.
  unfold ends_with_mark_location. destruct (last prev) as [b|] eqn:Hlast.
  - apply last_Some in Hlast as [prev' ->]. intros Hb.
    destruct b; try discriminate.
    rewrite <- app_assoc. apply rewrite_run_after_mark.
  - apply last_None in Hlast as ->. reflexivity.
Qed.

(** C8. When the scan reaches [MarkLocation L], the blocks read since the
    previous MarkLocation are emitted in their order with every LocalField
    resolved at [L] (a ContextField, or a FoldedContextField when [L] is a
    fold-scope location), then the MarkLocation itself; the visitor leaves
    every expression other than a LocalField as it is. *)
Theorem replace_local_fields_at_mark_location
    (prev buffered : list Block) (L : Location) (rest : list Block) :
  ends_with_mark_location prev = true ->
  no_mark_location buffered = true ->
  (exists out_prev out_rest,
     replace_local_fields_with_context_fields prev = Ok out_prev /\
     replace_local_fields_with_context_fields rest = Ok out_rest /\
     replace_local_fields_with_context_fields (prev ++ buffered ++ MarkLocation L :: rest)
     = Ok (out_prev ++ map (resolve_block L) buffered ++ MarkLocation L :: out_rest)) /\
  (forall block,
     visit_and_update_expressions (visitor_func_base L) block = resolve_block L block) /\
  (forall name ty,
     visitor_func_base L (LocalField name ty)
     = if is_fold_scope_location L
       then FoldedContextField (navigate_to_field L name) ty
       else ContextField (navigate_to_field L name) ty) /\
  (forall e, (forall name ty, e <> LocalField name ty) -> visitor_func_base L e = e) /\
  (forall e, has_local_field e = false -> visit_and_update (visitor_func_base L) e = e).
Proof.
  intros Hprev Hbuf. repeat split.
  - exists (rewrite_run [] prev), (rewrite_run [] rest).
    rewrite !replace_local_fields_Ok. repeat split. f_equal.
    rewrite rewrite_run_prefix by exact Hprev.
    rewrite rewrite_run_at_mark by exact Hbuf. reflexivity.
  - apply visit_block_visitor_func_base.
  - intros e He. destruct e; try reflexivity. by destruct (He field_name field_type).
  - intros e He. rewrite visit_visitor_func_base. by apply resolve_local_fields_id.
Qed.

Lemma replace_local_fields_at_mark_location_witness :
  ends_with_mark_location [QueryRoot; MarkLocation loc_A] = true /\
  no_mark_location [Traverse "out" "Animal_ParentOf" true; name_filter] = true /\
  exists out_prev out_rest,
    replace_local_fields_with_context_fields [QueryRoot; MarkLocation loc_A] = Ok out_prev /\
    replace_local_fields_with_context_fields [Backtrack loc_A; GlobalOperationsStart]
    = Ok out_rest /\
    replace_local_fields_with_context_fields
      ([QueryRoot; MarkLocation loc_A]
         ++ [Traverse "out" "Animal_ParentOf" true; name_filter]
         ++ MarkLocation loc_B :: [Backtrack loc_A; GlobalOperationsStart])
    = Ok (out_prev
            ++ map (resolve_block loc_B) [Traverse "out" "Animal_ParentOf" true; name_filter]
            ++ MarkLocation loc_B :: out_rest).
Proof.
  split; [reflexivity |]. split; [reflexivity |].
  apply (replace_local_fields_at_mark_location
           [QueryRoot; MarkLocation loc_A]
           [Traverse "out" "Animal_ParentOf" true; name_filter] loc_B
           [Backtrack loc_A; GlobalOperationsStart]);
    reflexivity.
Defined.

Lemma rewrite_run_before_last_mark (pre pending : list Block) (L : Location)
    (post : list Block) :
  no_mark_location post = true ->
  exists out_pre,
    rewrite_run pending (pre ++ MarkLocation L :: post) = out_pre ++ MarkLocation L :: post /\
    length out_pre = (length pending + length pre)%nat /\
    existsb block_has_local_field out_pre = false.
Proof.
  intros Hpost. revert pending. induction pre as [|x pre IH]; intros pending.
  - exists (map (resolve_block L) pending). simpl.
    rewrite (rewrite_run_no_mark [] post Hpost). simpl. split; [| split].
    + f_equal. apply map_ext. intros b. apply visit_block_visitor_func_base.
    + rewrite length_map. lia.
    + induction pending as [|b pending IHp]; simpl; [reflexivity |].
      by rewrite resolve_block_none.
  - assert (Hother : is_mark_location x = false ->
              exists out_pre,
                rewrite_run (pending ++ [x]) (pre ++ MarkLocation L :: post)
                = out_pre ++ MarkLocation L :: post /\
                length out_pre = (length pending + S (length pre))%nat /\
                existsb block_has_local_field out_pre = false).
    { intros _. destruct (IH (pending ++ [x])) as (out_pre & Hrun & Hlen & Hnone).
      exists out_pre. rewrite length_app in Hlen. simpl in Hlen.
      split; [exact Hrun |]. split; [lia | exact Hnone]. }
    destruct x; simpl; try (apply Hother; reflexivity).
    destruct (IH []) as (out_pre & Hrun & Hlen & Hnone).
    exists (map (resolve_block location) pending ++ MarkLocation location :: out_pre).
    rewrite Hrun. split; [| split].
    + rewrite <- app_assoc. simpl. f_equal.
      apply map_ext. intros b. apply visit_block_visitor_func_base.
    + rewrite length_app, length_map. simpl. simpl in Hlen. lia.
    + rewrite existsb_app. simpl. rewrite Hnone.
      clear. induction pending as [|b pending IHp]; simpl; [reflexivity |].
      by rewrite resolve_block_none.
Qed.

(** C6, as stated, fails: the input holds a MarkLocation, and the Filter
    after it leaves the pass with its LocalField. *)
Lemma local_field_left_after_last_mark_location :
  existsb is_mark_location trailing_filter_blocks = true /\
  exists out,
    replace_local_fields_with_context_fields trailing_filter_blocks = Ok out /\
    existsb block_has_local_field out = true.
Proof. split; [reflexivity |]. eexists. split; reflexivity. Qed.

(** C6, amended. The blocks up to the last MarkLocation leave the pass
    without any LocalField; the blocks after the last MarkLocation are
    returned as they are. *)
Theorem no_local_field_before_last_mark_location
    (pre : list Block) (L : Location) (post : list Block) :
  no_mark_location post = true ->
  exists out_pre,
    replace_local_fields_with_context_fields (pre ++ MarkLocation L :: post)
    = Ok (out_pre ++ MarkLocation L :: post) /\
    length out_pre = length pre /\
    existsb block_has_local_field out_pre = false.
Proof.
  intros Hpost.
  destruct (rewrite_run_before_last_mark pre [] L post Hpost) as (out_pre & Hrun & Hlen & Hnone).
  exists out_pre. rewrite replace_local_fields_Ok, Hrun. done.
Qed.

Lemma no_local_field_before_last_mark_location_witness :
  no_mark_location [Backtrack loc_A; GlobalOperationsStart] = true /\
  exists out_pre,
    replace_local_fields_with_context_fields
      ([QueryRoot; MarkLocation loc_A; Traverse "out" "Animal_ParentOf" true; name_filter]
         ++ MarkLocation loc_B :: [Backtrack loc_A; GlobalOperationsStart])
    = Ok (out_pre ++ MarkLocation loc_B :: [Backtrack loc_A; GlobalOperationsStart]) /\
    length out_pre
    = length [QueryRoot; MarkLocation loc_A; Traverse "out" "Animal_ParentOf" true; name_filter] /\
    existsb block_has_local_field out_pre = false.
Proof.
  split; [reflexivity |].
  apply (no_local_field_before_last_mark_location
           [QueryRoot; MarkLocation loc_A; Traverse "out" "Animal_ParentOf" true; name_filter]
           loc_B [Backtrack loc_A; GlobalOperationsStart]).
  reflexivity.
Defined.

(** ** Pass 2: revisit locations *)







Lemma drop_revisits_elem_of (m : gmap Location Location)
    (visitor_fn : Expression -> Expression) (ir_blocks : list Block) (b : Block) :
  b ∈ drop_revisits m visitor_fn ir_blocks <->
  exists b0, b0 ∈ ir_blocks /\ is_revisit_mark_location m b0 = false /\
             b = visit_and_update_expressions visitor_fn b0.
Proof.
  induction ir_blocks as [|x rest IH]; simpl.
  - split; [intros H; inversion H | intros (b0 & H & _); inversion H].
  - destruct (is_revisit_mark_location m x) eqn:Hx.
    + rewrite IH. split.
      * intros (b0 & Hin & Hb0 & ->). exists b0. split; [by right | done].
      * intros (b0 & Hin & Hb0 & ->). exists b0.
        apply elem_of_cons in Hin as [-> | Hin]; [congruence | done].
    + rewrite elem_of_cons, IH. split.
      * intros [-> | (b0 & Hin & Hb0 & ->)].
        -- exists x. split; [by left | done].
        -- exists b0. split; [by right | done].
      * intros (b0 & Hin & Hb0 & ->).
        apply elem_of_cons in Hin as [-> | Hin]; [by left | right; eauto].
Qed.




(** ** Pass 4 *)

Lemma hoist_step_scope (qmt : QueryMetadataTable) (st : HoistState) (block : Block) :
  within_optional_scope (hoist_step qmt st block)
  = scope_step qmt (within_optional_scope st) block.
Proof.
  unfold hoist_step, hoist_branch.
  destruct (within_optional_scope st), block as [| ? ? [] | | | | | | |]; reflexivity.
Qed.

Lemma hoist_fold_scope (qmt : QueryMetadataTable) (blocks : list Block) (st : HoistState) :
  within_optional_scope (fold_left (hoist_step qmt) blocks st)
  = scope_after qmt (within_optional_scope st) blocks.
Proof.
  revert st. induction blocks as [|x rest IH]; intros st; [reflexivity |].
  simpl. rewrite IH, hoist_step_scope. reflexivity.
Qed.

Lemma hoist_step_not_global_start (qmt : QueryMetadataTable) (st : HoistState)
    (block : Block) :
  is_global_operations_start block = false ->
  mv_new_ir_blocks (hoist_step qmt st block)
  = mv_new_ir_blocks st
      ++ (if within_optional_scope st && is_filter block then [] else [block]) /\
  mv_global_filters (hoist_step qmt st block)
  = mv_global_filters st
      ++ (if within_optional_scope st && is_filter block then [block] else []).
Proof.
  unfold hoist_step, hoist_branch.
  destruct (within_optional_scope st), block as [| ? ? [] | | | | | | |];
    simpl; intros H; try discriminate; rewrite ?app_nil_r; done.
Qed.

Lemma hoist_step_global_start (qmt : QueryMetadataTable) (st : HoistState) :
  hoist_step qmt st GlobalOperationsStart
  = {| mv_new_ir_blocks :=
         mv_new_ir_blocks st ++ GlobalOperationsStart :: mv_global_filters st;
       mv_global_filters := [];
       within_optional_scope := within_optional_scope st |}.
Proof.
  unfold hoist_step, hoist_branch.
  destruct (within_optional_scope st); simpl; rewrite <- app_assoc; reflexivity.
Qed.

Lemma hoist_fold_no_global_start (qmt : QueryMetadataTable) (blocks : list Block)
    (st : HoistState) :
  no_global_operations_start blocks = true ->
  mv_new_ir_blocks (fold_left (hoist_step qmt) blocks st)
  = mv_new_ir_blocks st ++ kept qmt (within_optional_scope st) blocks /\
  mv_global_filters (fold_left (hoist_step qmt) blocks st)
  = mv_global_filters st ++ hoisted qmt (within_optional_scope st) blocks.
Proof.
  unfold no_global_operations_start. revert st.
  induction blocks as [|x rest IH]; intros st H; simpl.
  - by rewrite !app_nil_r.
  - simpl in H. apply andb_prop in H as [Hx Hrest]. apply negb_true_iff in Hx.
    destruct (IH (hoist_step qmt st x) Hrest) as [Hnew Hgf].
    destruct (hoist_step_not_global_start qmt st x Hx) as [Hnew1 Hgf1].
    rewrite Hnew, Hgf, Hnew1, Hgf1, hoist_step_scope, <- !app_assoc. done.
Qed.

Lemma hoist_fold_length (qmt : QueryMetadataTable) (blocks : list Block) (st : HoistState) :
  (length (mv_new_ir_blocks (fold_left (hoist_step qmt) blocks st))
   + length (mv_global_filters (fold_left (hoist_step qmt) blocks st))
   = length (mv_new_ir_blocks st) + length (mv_global_filters st) + length blocks)%nat.
Proof.
  revert st. induction blocks as [|x rest IH]; intros st; simpl; [lia |].
  rewrite IH. destruct (is_global_operations_start x) eqn:Hx.
  - destruct x; try discriminate. rewrite hoist_step_global_start. simpl.
    rewrite length_app. simpl. lia.
  - destruct (hoist_step_not_global_start qmt st x Hx) as [-> ->].
    rewrite !length_app. destruct (within_optional_scope st && is_filter x); simpl; lia.
Qed.

Lemma kept_hoisted_length (qmt : QueryMetadataTable) (blocks : list Block) (inside : bool) :
  (length (kept qmt inside blocks) + length (hoisted qmt inside blocks)
   = length blocks)%nat.
Proof.
  revert inside. induction blocks as [|x rest IH]; intros inside; simpl; [reflexivity |].
  rewrite !length_app. specialize (IH (scope_step qmt inside x)).
  destruct (inside && is_filter x); simpl; lia.
Qed.

Lemma kept_nothing_hoisted (qmt : QueryMetadataTable) (blocks : list Block) (inside : bool) :
  hoisted qmt inside blocks = [] -> kept qmt inside blocks = blocks.
Proof.
  revert inside. induction blocks as [|x rest IH]; intros inside; simpl; [reflexivity |].
  destruct (inside && is_filter x); simpl; [discriminate |].
  intros H. by rewrite IH.
Qed.

Lemma scope_after_app (qmt : QueryMetadataTable) (inside : bool) (xs ys : list Block) :
  scope_after qmt inside (xs ++ ys) = scope_after qmt (scope_after qmt inside xs) ys.
Proof. apply fold_left_app. Qed.

Lemma hoisted_elem_of (qmt : QueryMetadataTable) (blocks : list Block) (inside : bool)
    (k : nat) (p : Expression) :
  blocks !! k = Some (Filter p) ->
  scope_after qmt inside (take k blocks) = true ->
  Filter p ∈ hoisted qmt inside blocks.
Proof.
  revert inside k. induction blocks as [|x rest IH]; intros inside k Hk Hscope.
  - discriminate.
  - destruct k as [|k]; simpl in *.
    + injection Hk as ->. rewrite Hscope. simpl. by left.
    + apply elem_of_app. right. by apply (IH _ k).
Qed.

(** The output on an input with a single GlobalOperationsStart. *)
Lemma move_filters_single_global_start (qmt : QueryMetadataTable) (pre post : list Block) :
  no_global_operations_start pre = true ->
  no_global_operations_start post = true ->
  move_filters_in_optional_locations_to_global_operations
    (pre ++ GlobalOperationsStart :: post) qmt
  = kept qmt false pre ++ GlobalOperationsStart :: hoisted qmt false pre
      ++ kept qmt (scope_after qmt false pre) post.
Proof.
  intros Hpre Hpost. unfold move_filters_in_optional_locations_to_global_operations.
  rewrite fold_left_app. simpl fold_left.
  destruct (hoist_fold_no_global_start qmt pre hoist_init Hpre) as [Hnew Hgf].
  pose proof (hoist_fold_scope qmt pre hoist_init) as Hscope.
  simpl in Hnew, Hgf, Hscope.
  destruct (hoist_fold_no_global_start qmt post
              (hoist_step qmt (fold_left (hoist_step qmt) pre hoist_init)
                 GlobalOperationsStart) Hpost) as [Hnew' _].
  rewrite Hnew'. rewrite hoist_step_global_start. simpl.
  rewrite Hnew, Hgf, Hscope, <- !app_assoc. reflexivity.
Qed.

Lemma nesting_after_app (open : list bool) (xs ys : list Block) :
  nesting_after open (xs ++ ys) = nesting_after (nesting_after open xs) ys.
Proof. apply fold_left_app. Qed.

Lemma scope_step_nesting_step (qmt : QueryMetadataTable) (open : list bool) (block : Block) :
  match block with
  | Backtrack location =>
      bool_decide (optional_scopes_depth (get_location_info qmt location) > 0)
      = inside_optional_scope (tail open)
  | _ => True
  end ->
  scope_step qmt (inside_optional_scope open) block
  = inside_optional_scope (nesting_step open block).
Proof. destruct block as [| ? ? [] | | | | | | |]; simpl; done. Qed.

(** When the table agrees with the nesting, the flag of the scan says
    whether an optional Traverse is open. *)
Lemma agree_with_nesting (qmt : QueryMetadataTable) (blocks : list Block)
    (open : list bool) :
  depths_agree_with_nesting qmt open blocks = true ->
  hoisted qmt (inside_optional_scope open) blocks = optional_scope_filters open blocks /\
  kept qmt (inside_optional_scope open) blocks = blocks_left_in_place open blocks /\
  scope_after qmt (inside_optional_scope open) blocks
  = inside_optional_scope (nesting_after open blocks).
Proof.
  revert open. induction blocks as [|x rest IH]; intros open Hagree; [done |].
  simpl in Hagree. apply andb_prop in Hagree as [Hx Hrest].
  assert (Hstep : scope_step qmt (inside_optional_scope open) x
                  = inside_optional_scope (nesting_step open x)).
  { apply scope_step_nesting_step. destruct x; try exact I.
    by apply bool_decide_eq_true in Hx. }
  destruct (IH _ Hrest) as (Hh & Hk & Hs).
  unfold scope_after, nesting_after in *. simpl. rewrite Hstep, Hh, Hk, Hs. done.
Qed.

Lemma depths_agree_with_nesting_app (qmt : QueryMetadataTable) (xs ys : list Block)
    (open : list bool) :
  depths_agree_with_nesting qmt open (xs ++ ys)
  = depths_agree_with_nesting qmt open xs
    && depths_agree_with_nesting qmt (nesting_after open xs) ys.
Proof.
  revert open. induction xs as [|x xs IH]; intros open; [reflexivity |].
  simpl. rewrite IH, andb_assoc. reflexivity.
Qed.

Lemma nothing_in_optional_scope (blocks : list Block) (open : list bool) :
  optional_scope_filters open blocks = [] -> blocks_left_in_place open blocks = blocks.
Proof.
  revert open. induction blocks as [|x rest IH]; intros open; simpl; [reflexivity |].
  destruct (inside_optional_scope open && is_filter x); simpl; [discriminate |].
  intros H. by rewrite IH.
Qed.

Lemma optional_scope_split_length (blocks : list Block) (open : list bool) :
  (length (blocks_left_in_place open blocks) + length (optional_scope_filters open blocks)
   = length blocks)%nat.
Proof.
  revert open. induction blocks as [|x rest IH]; intros open; simpl; [reflexivity |].
  rewrite !length_app. specialize (IH (nesting_step open x)).
  destruct (inside_optional_scope open && is_filter x); simpl; lia.
Qed.

Lemma optional_scope_filters_elem_of (blocks : list Block) (open : list bool)
    (k : nat) (p : Expression) :
  blocks !! k = Some (Filter p) ->
  inside_optional_scope (nesting_after open (take k blocks)) = true ->
  Filter p ∈ optional_scope_filters open blocks.
Proof.
  revert open k. induction blocks as [|x rest IH]; intros open k Hk Hscope.
  - discriminate.
  - destruct k as [|k]; simpl in *.
    + injection Hk as ->. rewrite Hscope. simpl. by left.
    + apply elem_of_app. right. by apply (IH _ k).
Qed.

Lemma optional_scope_filters_take_length (blocks : list Block) (open : list bool) (k : nat) :
  (length (optional_scope_filters open (take k blocks)) <= k)%nat.
Proof.
  pose proof (optional_scope_split_length (take k blocks) open) as Hlen.
  pose proof (length_take_le blocks k). destruct (decide (k <= length blocks)%nat).
  - rewrite length_take_le in Hlen by done. lia.
  - rewrite take_ge in Hlen |- * by lia. lia.
Qed.

Lemma blocks_left_in_place_lookup (blocks : list Block) (open : list bool)
    (k : nat) (block : Block) :
  blocks !! k = Some block ->
  inside_optional_scope (nesting_after open (take k blocks)) && is_filter block = false ->
  blocks_left_in_place open blocks
    !! (k - length (optional_scope_filters open (take k blocks)))%nat
  = Some block.
Proof.
  revert open k. induction blocks as [|x rest IH]; intros open k Hk Hstay.
  - discriminate.
  - destruct k as [|k]; simpl in *.
    + injection Hk as ->. unfold nesting_after in Hstay. simpl in Hstay.
      by rewrite Hstay.
    + specialize (IH (nesting_step open x) k Hk Hstay).
      pose proof (optional_scope_filters_take_length rest (nesting_step open x) k) as Hle.
      destruct (inside_optional_scope open && is_filter x); simpl.
      * exact IH.
      * replace (S k - length (optional_scope_filters (nesting_step open x) (take k rest)))%nat
          with (S (k - length (optional_scope_filters (nesting_step open x) (take k rest))))
          by lia.
        exact IH.
Qed.

(** C1, as stated, fails, in three ways.  In [late_filter_blocks] the table
    agrees with the nesting and the Filter lies between the optional
    Traverse and its matching Backtrack, but after GlobalOperationsStart: it
    is missing from the output.  In [stray_backtrack_blocks] no Traverse is
    optional, so no Filter lies in an optional scope, yet the Filter is
    moved after GlobalOperationsStart, because the table gives the location
    of the Backtrack a positive depth.  In [two_filter_blocks] the Filter
    outside the optional scope stays before GlobalOperationsStart, but one
    index lower than in the input, since a Filter before it was moved. *)
Lemma hoist_correctness_fails :
  (legal_block_order late_filter_blocks = true /\
   exactly_one_global_operations_start late_filter_blocks = true /\
   depths_agree_with_nesting example_metadata [] late_filter_blocks = true /\
   ~ optional_scope_filters_follow_global_start example_metadata late_filter_blocks) /\
  (legal_block_order stray_backtrack_blocks = true /\
   exactly_one_global_operations_start stray_backtrack_blocks = true /\
   optional_scope_filters [] stray_backtrack_blocks = [] /\
   move_filters_in_optional_locations_to_global_operations stray_backtrack_blocks
     example_metadata
   = [ QueryRoot; MarkLocation loc_A;
       Traverse "out" "Animal_ParentOf" false; MarkLocation loc_B;
       Backtrack loc_B; GlobalOperationsStart;
       Filter (ContextField (navigate_to_field loc_B "name") "String") ] /\
   ~ other_filters_keep_their_index example_metadata stray_backtrack_blocks) /\
  (legal_block_order two_filter_blocks = true /\
   exactly_one_global_operations_start two_filter_blocks = true /\
   depths_agree_with_nesting example_metadata [] two_filter_blocks = true /\
   move_filters_in_optional_locations_to_global_operations two_filter_blocks
     example_metadata
   = [ QueryRoot; MarkLocation loc_A;
       Traverse "out" "Animal_ParentOf" true; MarkLocation loc_B; Backtrack loc_A;
       Filter (ContextField (navigate_to_field loc_A "name") "String");
       GlobalOperationsStart;
       Filter (ContextField (navigate_to_field loc_B "name") "String") ] /\
   ~ other_filters_keep_their_index example_metadata two_filter_blocks).
Proof.
  split; [| split].
  - split; [reflexivity |]. split; [reflexivity |]. split; [reflexivity |].
    intros H.
    destruct (H 5%nat (ContextField (navigate_to_field loc_B "name") "String"))
      as (i & j & _ & Hj & _); [reflexivity | reflexivity |].
    vm_compute in Hj.
    do 6 (destruct j as [|j]; [discriminate |]). discriminate.
  - split; [reflexivity |]. split; [reflexivity |]. split; [reflexivity |].
    split; [reflexivity |].
    intros H.
    specialize (H 5%nat (ContextField (navigate_to_field loc_B "name") "String")
                  eq_refl eq_refl).
    discriminate.
  - split; [reflexivity |]. split; [reflexivity |]. split; [reflexivity |].
    split; [reflexivity |].
    intros H.
    specialize (H 6%nat (ContextField (navigate_to_field loc_A "name") "String")
                  eq_refl eq_refl).
    discriminate.
Qed.

(** C1, amended.  Take an input with a single GlobalOperationsStart, for
    which the metadata table agrees with the nesting of the blocks (the
    location of a Backtrack has a positive optional-scope depth exactly when
    an optional Traverse is still open after it) and in which no Filter
    after GlobalOperationsStart lies between an optional Traverse and its
    matching Backtrack.  Then the output is: the blocks before
    GlobalOperationsStart without the Filters that lie between an optional
    Traverse and its matching Backtrack, GlobalOperationsStart, those
    Filters in their order, and the blocks after GlobalOperationsStart.  So
    every such Filter follows GlobalOperationsStart; and a Filter in no
    optional scope stays among the blocks that are not moved: before
    GlobalOperationsStart its index is lowered by the number of Filters
    moved from before it, after GlobalOperationsStart it is unchanged. *)
Theorem move_filters_hoist_correctness (qmt : QueryMetadataTable)
    (pre post : list Block) :
  no_global_operations_start pre = true ->
  no_global_operations_start post = true ->
  depths_agree_with_nesting qmt [] (pre ++ GlobalOperationsStart :: post) = true ->
  optional_scope_filters (nesting_after [] pre) post = [] ->
  move_filters_in_optional_locations_to_global_operations
    (pre ++ GlobalOperationsStart :: post) qmt
  = blocks_left_in_place [] pre ++ GlobalOperationsStart
      :: optional_scope_filters [] pre ++ post /\
  optional_scope_filters_follow_global_start qmt (pre ++ GlobalOperationsStart :: post) /\
  (forall (k : nat) (p : Expression),
     (pre ++ GlobalOperationsStart :: post) !! k = Some (Filter p) ->
     in_optional_scope_at (pre ++ GlobalOperationsStart :: post) k = false ->
     move_filters_in_optional_locations_to_global_operations
       (pre ++ GlobalOperationsStart :: post) qmt
       !! (if bool_decide (k < length pre)%nat
           then (k - length (optional_scope_filters [] (take k pre)))%nat
           else k)
     = Some (Filter p)).
Proof.
  intros Hpre Hpost Hagree Hnone.
  rewrite depths_agree_with_nesting_app in Hagree.
  apply andb_prop in Hagree as [Hagree_pre Hagree_post].
  simpl in Hagree_post.
  destruct (agree_with_nesting qmt pre [] Hagree_pre) as (Hh & Hk & Hs).
  destruct (agree_with_nesting qmt post (nesting_after [] pre) Hagree_post)
    as (_ & Hk' & _).
  change (inside_optional_scope []) with false in Hh, Hk, Hs.
  assert (Hout : move_filters_in_optional_locations_to_global_operations
                   (pre ++ GlobalOperationsStart :: post) qmt
                 = blocks_left_in_place [] pre ++ GlobalOperationsStart
                     :: optional_scope_filters [] pre ++ post).
  { rewrite move_filters_single_global_start by assumption.
    rewrite Hh, Hk, Hs, Hk'. by rewrite (nothing_in_optional_scope post _ Hnone). }
  split; [exact Hout |]. split.
  - intros k p Hk0 Hscope. rewrite Hout. unfold in_optional_scope_at in Hscope.
    apply lookup_app_Some in Hk0 as [Hk0 | [Hle Hk0]].
    + rewrite take_app_le in Hscope
        by (apply Nat.lt_le_incl, (lookup_lt_Some _ _ _ Hk0)).
      pose proof (optional_scope_filters_elem_of pre [] k p Hk0 Hscope) as Hin.
      apply list_elem_of_lookup in Hin as [j' Hj'].
      exists (length (blocks_left_in_place [] pre)),
             (length (blocks_left_in_place [] pre) + S j')%nat.
      split; [apply list_lookup_middle; reflexivity |]. split; [| lia].
      rewrite lookup_app_r by lia.
      replace (length (blocks_left_in_place [] pre) + S j'
               - length (blocks_left_in_place [] pre))%nat with (S j') by lia.
      simpl. by apply lookup_app_l_Some.
    + exfalso. rewrite take_app_ge in Hscope by exact Hle.
      destruct (k - length pre)%nat as [|k'] eqn:Ek; [discriminate |].
      simpl in Hk0. rewrite nesting_after_app in Hscope. simpl in Hscope.
      pose proof (optional_scope_filters_elem_of post _ k' p Hk0 Hscope) as Hin.
      rewrite Hnone in Hin. inversion Hin.
  - intros k p Hk0 Hscope. rewrite Hout. unfold in_optional_scope_at in Hscope.
    pose proof (optional_scope_split_length pre []) as Hlen.
    apply lookup_app_Some in Hk0 as [Hk0 | [Hle Hk0]].
    + pose proof (lookup_lt_Some _ _ _ Hk0) as Hlt.
      rewrite bool_decide_eq_true_2 by exact Hlt.
      rewrite take_app_le in Hscope by lia.
      apply lookup_app_l_Some.
      apply blocks_left_in_place_lookup; [exact Hk0 |]. by rewrite Hscope.
    + rewrite bool_decide_eq_false_2 by lia.
      destruct (k - length pre)%nat as [|k'] eqn:Ek; [discriminate |].
      simpl in Hk0.
      rewrite lookup_app_r by lia.
      replace (k - length (blocks_left_in_place [] pre))%nat
        with (S (length (optional_scope_filters [] pre) + k')) by lia.
      simpl. rewrite lookup_app_r by lia.
      replace (length (optional_scope_filters [] pre) + k'
               - length (optional_scope_filters [] pre))%nat with k' by lia.
      exact Hk0.
Qed.

Lemma move_filters_hoist_correctness_witness :
  no_global_operations_start
    [QueryRoot; MarkLocation loc_A; Traverse "out" "Animal_ParentOf" true;
     Filter (ContextField (navigate_to_field loc_B "name") "String");
     MarkLocation loc_B; Backtrack loc_A] = true /\
  no_global_operations_start [Filter (Literal "$enabled")] = true /\
  depths_agree_with_nesting example_metadata []
    ([QueryRoot; MarkLocation loc_A; Traverse "out" "Animal_ParentOf" true;
      Filter (ContextField (navigate_to_field loc_B "name") "String");
      MarkLocation loc_B; Backtrack loc_A]
       ++ GlobalOperationsStart :: [Filter (Literal "$enabled")]) = true /\
  optional_scope_filters
    (nesting_after []
       [QueryRoot; MarkLocation loc_A; Traverse "out" "Animal_ParentOf" true;
        Filter (ContextField (navigate_to_field loc_B "name") "String");
        MarkLocation loc_B; Backtrack loc_A])
    [Filter (Literal "$enabled")] = [] /\
  move_filters_in_optional_locations_to_global_operations
    ([QueryRoot; MarkLocation loc_A; Traverse "out" "Animal_ParentOf" true;
      Filter (ContextField (navigate_to_field loc_B "name") "String");
      MarkLocation loc_B; Backtrack loc_A]
       ++ GlobalOperationsStart :: [Filter (Literal "$enabled")]) example_metadata
  = [QueryRoot; MarkLocation loc_A; Traverse "out" "Animal_ParentOf" true;
     MarkLocation loc_B; Backtrack loc_A; GlobalOperationsStart;
     Filter (ContextField (navigate_to_field loc_B "name") "String");
     Filter (Literal "$enabled")].
Proof.
  split; [reflexivity |]. split; [reflexivity |]. split; [reflexivity |].
  split; [reflexivity |].
  apply (move_filters_hoist_correctness example_metadata
           [QueryRoot; MarkLocation loc_A; Traverse "out" "Animal_ParentOf" true;
            Filter (ContextField (navigate_to_field loc_B "name") "String");
            MarkLocation loc_B; Backtrack loc_A]
           [Filter (Literal "$enabled")]);
    reflexivity.
Defined.

(** C9. Without any GlobalOperationsStart the output is the input without
    the Filters met inside an optional scope; after the last
    GlobalOperationsStart the output holds the blocks that follow it, again
    without the Filters met inside an optional scope.  Those Filters are in
    the pending list when the pass returns and are not part of its result:
    the output is shorter than the input by their number. *)
Theorem move_filters_drops_pending_filters (qmt : QueryMetadataTable) :
  (forall blocks,
     no_global_operations_start blocks = true ->
     move_filters_in_optional_locations_to_global_operations blocks qmt
     = kept qmt false blocks /\
     (length (move_filters_in_optional_locations_to_global_operations blocks qmt)
      + length (hoisted qmt false blocks) = length blocks)%nat) /\
  (forall pre post,
     no_global_operations_start post = true ->
     move_filters_in_optional_locations_to_global_operations
       (pre ++ GlobalOperationsStart :: post) qmt
     = move_filters_in_optional_locations_to_global_operations
         (pre ++ [GlobalOperationsStart]) qmt
       ++ kept qmt (scope_after qmt false (pre ++ [GlobalOperationsStart])) post /\
     (length (move_filters_in_optional_locations_to_global_operations
                (pre ++ GlobalOperationsStart :: post) qmt)
      + length (hoisted qmt (scope_after qmt false (pre ++ [GlobalOperationsStart])) post)
      = length (pre ++ GlobalOperationsStart :: post))%nat).
Proof.
  split.
  - intros blocks Hno.
    assert (Hout : move_filters_in_optional_locations_to_global_operations blocks qmt
                   = kept qmt false blocks).
    { unfold move_filters_in_optional_locations_to_global_operations.
      by destruct (hoist_fold_no_global_start qmt blocks hoist_init Hno) as [-> _]. }
    split; [exact Hout |]. rewrite Hout. apply kept_hoisted_length.
  - intros pre post Hpost.
    assert (Hout : move_filters_in_optional_locations_to_global_operations
                     (pre ++ GlobalOperationsStart :: post) qmt
                   = move_filters_in_optional_locations_to_global_operations
                       (pre ++ [GlobalOperationsStart]) qmt
                     ++ kept qmt (scope_after qmt false (pre ++ [GlobalOperationsStart])) post).
    { unfold move_filters_in_optional_locations_to_global_operations.
      replace (pre ++ GlobalOperationsStart :: post)
        with ((pre ++ [GlobalOperationsStart]) ++ post) by (by rewrite <- app_assoc).
      rewrite (fold_left_app _ (pre ++ [GlobalOperationsStart]) post).
      destruct (hoist_fold_no_global_start qmt post
                  (fold_left (hoist_step qmt) (pre ++ [GlobalOperationsStart]) hoist_init)
                  Hpost) as [-> _].
      by rewrite hoist_fold_scope. }
    split; [exact Hout |]. rewrite Hout, !length_app.
    pose proof (kept_hoisted_length qmt post
                  (scope_after qmt false (pre ++ [GlobalOperationsStart]))) as Hlen.
    pose proof (hoist_fold_length qmt (pre ++ [GlobalOperationsStart]) hoist_init) as Hfold.
    unfold move_filters_in_optional_locations_to_global_operations.
    rewrite fold_left_app in Hfold |- *. simpl fold_left in Hfold |- *.
    rewrite hoist_step_global_start in Hfold |- *. simpl in Hfold |- *.
    rewrite !length_app. rewrite !length_app in Hfold.
    simpl in Hfold |- *. lia.
Qed.

Lemma move_filters_drops_pending_filters_witness :
  no_global_operations_start
    [Filter (ContextField (navigate_to_field loc_B "name") "String"); Backtrack loc_A]
  = true /\
  move_filters_in_optional_locations_to_global_operations late_filter_blocks example_metadata
  = [QueryRoot; MarkLocation loc_A; Traverse "out" "Animal_ParentOf" true;
     MarkLocation loc_B; GlobalOperationsStart; Backtrack loc_A].
Proof.
  split; [reflexivity |].
  apply (proj1 (proj2 (move_filters_drops_pending_filters example_metadata)
                  [QueryRoot; MarkLocation loc_A; Traverse "out" "Animal_ParentOf" true;
                   MarkLocation loc_B]
                  [Filter (ContextField (navigate_to_field loc_B "name") "String");
                   Backtrack loc_A]
                  eq_refl)).
Defined.

Lemma hoist_step_inert (qmt : QueryMetadataTable) (block : Block)
    (n g : list Block) (w : bool) :
  is_inert block = true ->
  hoist_step qmt {| mv_new_ir_blocks := n; mv_global_filters := g;
                    within_optional_scope := w |} block
  = {| mv_new_ir_blocks := n ++ [block]; mv_global_filters := g;
       within_optional_scope := w |}.
Proof.
  destruct w, block as [| ? ? [] | | | | | | |]; try discriminate; reflexivity.
Qed.

Lemma hoist_fold_inert (qmt : QueryMetadataTable) (s rest n g : list Block) (w : bool) :
  forallb is_inert s = true ->
  fold_left (hoist_step qmt) (s ++ rest)
    {| mv_new_ir_blocks := n; mv_global_filters := g; within_optional_scope := w |}
  = fold_left (hoist_step qmt) rest
      {| mv_new_ir_blocks := n ++ s; mv_global_filters := g; within_optional_scope := w |}.
Proof.
  revert n. induction s as [|x s IH]; intros n H.
  - simpl. by rewrite app_nil_r.
  - simpl in H. apply andb_prop in H as [Hx Hs]. simpl.
    rewrite hoist_step_inert by exact Hx. rewrite IH by exact Hs.
    by rewrite <- app_assoc.
Qed.

Lemma hoist_step_optional_traverse (qmt : QueryMetadataTable) (d e : string)
    (n g : list Block) (w : bool) :
  hoist_step qmt {| mv_new_ir_blocks := n; mv_global_filters := g;
                    within_optional_scope := w |} (Traverse d e true)
  = {| mv_new_ir_blocks := n ++ [Traverse d e true]; mv_global_filters := g;
       within_optional_scope := true |}.
Proof. destruct w; reflexivity. Qed.

Lemma hoist_step_filter_inside (qmt : QueryMetadataTable) (p : Expression)
    (n g : list Block) :
  hoist_step qmt {| mv_new_ir_blocks := n; mv_global_filters := g;
                    within_optional_scope := true |} (Filter p)
  = {| mv_new_ir_blocks := n; mv_global_filters := g ++ [Filter p];
       within_optional_scope := true |}.
Proof. reflexivity. Qed.

Lemma hoist_step_backtrack (qmt : QueryMetadataTable) (location : Location)
    (n g : list Block) (w : bool) :
  hoist_step qmt {| mv_new_ir_blocks := n; mv_global_filters := g;
                    within_optional_scope := w |} (Backtrack location)
  = {| mv_new_ir_blocks := n ++ [Backtrack location]; mv_global_filters := g;
       within_optional_scope :=
         bool_decide (optional_scopes_depth (get_location_info qmt location) > 0) |}.
Proof. destruct w; reflexivity. Qed.

(** C2. Whatever the flag was, after a Backtrack to [location] it is true
    exactly when the optional-scope depth recorded for [location] is
    positive.  Hence, with two nested optional scopes, the Filter of the
    inner scope and the Filter of the outer scope are both moved after
    GlobalOperationsStart in their order, whether the outer Filter comes
    after the Backtrack that leaves the inner scope (first equation) or
    before the inner Traverse (second equation).  The lists [s0] .. [s6]
    stand for blocks that do not act on the flag. *)
Theorem scope_flag_recomputed_at_backtrack (qmt : QueryMetadataTable) :
  (forall st location,
     within_optional_scope (hoist_step qmt st (Backtrack location))
     = bool_decide (optional_scopes_depth (get_location_info qmt location) > 0)) /\
  (forall s0 s1 s2 s3 s4 s5 s6 d1 e1 d2 e2 p_inner p_outer outer_location root_location,
     forallb is_inert s0 = true -> forallb is_inert s1 = true ->
     forallb is_inert s2 = true -> forallb is_inert s3 = true ->
     forallb is_inert s4 = true -> forallb is_inert s5 = true ->
     forallb is_inert s6 = true ->
     optional_scopes_depth (get_location_info qmt outer_location) > 0 ->
     move_filters_in_optional_locations_to_global_operations
       (s0 ++ Traverse d1 e1 true :: s1 ++ Traverse d2 e2 true :: s2
           ++ Filter p_inner :: s3 ++ Backtrack outer_location :: s4
           ++ Filter p_outer :: s5 ++ Backtrack root_location :: s6
           ++ [GlobalOperationsStart]) qmt
     = s0 ++ Traverse d1 e1 true :: s1 ++ Traverse d2 e2 true :: s2
          ++ s3 ++ Backtrack outer_location :: s4
          ++ s5 ++ Backtrack root_location :: s6
          ++ [GlobalOperationsStart; Filter p_inner; Filter p_outer]) /\
  (forall s0 s1 s2 s3 s4 s5 s6 d1 e1 d2 e2 p_inner p_outer outer_location root_location,
     forallb is_inert s0 = true -> forallb is_inert s1 = true ->
     forallb is_inert s2 = true -> forallb is_inert s3 = true ->
     forallb is_inert s4 = true -> forallb is_inert s5 = true ->
     forallb is_inert s6 = true ->
     move_filters_in_optional_locations_to_global_operations
       (s0 ++ Traverse d1 e1 true :: s1 ++ Filter p_outer :: s2
           ++ Traverse d2 e2 true :: s3 ++ Filter p_inner :: s4
           ++ Backtrack outer_location :: s5 ++ Backtrack root_location :: s6
           ++ [GlobalOperationsStart]) qmt
     = s0 ++ Traverse d1 e1 true :: s1 ++ s2
          ++ Traverse d2 e2 true :: s3 ++ s4
          ++ Backtrack outer_location :: s5 ++ Backtrack root_location :: s6
          ++ [GlobalOperationsStart; Filter p_outer; Filter p_inner]).
Proof.
  split; [| split].
  - intros st location. rewrite hoist_step_scope. reflexivity.
  - intros s0 s1 s2 s3 s4 s5 s6 d1 e1 d2 e2 p_inner p_outer outer_location root_location
      H0 H1 H2 H3 H4 H5 H6 Hdepth.
    unfold move_filters_in_optional_locations_to_global_operations, hoist_init.
    rewrite hoist_fold_inert by exact H0. cbn [fold_left].
    rewrite hoist_step_optional_traverse.
    rewrite hoist_fold_inert by exact H1. cbn [fold_left].
    rewrite hoist_step_optional_traverse.
    rewrite hoist_fold_inert by exact H2. cbn [fold_left].
    rewrite hoist_step_filter_inside.
    rewrite hoist_fold_inert by exact H3. cbn [fold_left].
    rewrite hoist_step_backtrack, (bool_decide_eq_true_2 _ Hdepth).
    rewrite hoist_fold_inert by exact H4. cbn [fold_left].
    rewrite hoist_step_filter_inside.
    rewrite hoist_fold_inert by exact H5. cbn [fold_left].
    rewrite hoist_step_backtrack.
    rewrite hoist_fold_inert by exact H6. cbn [fold_left].
    rewrite hoist_step_global_start. cbn.
    repeat (rewrite <- app_assoc; cbn [app]). reflexivity.
  - intros s0 s1 s2 s3 s4 s5 s6 d1 e1 d2 e2 p_inner p_outer outer_location root_location
      H0 H1 H2 H3 H4 H5 H6.
    unfold move_filters_in_optional_locations_to_global_operations, hoist_init.
    rewrite hoist_fold_inert by exact H0. cbn [fold_left].
    rewrite hoist_step_optional_traverse.
    rewrite hoist_fold_inert by exact H1. cbn [fold_left].
    rewrite hoist_step_filter_inside.
    rewrite hoist_fold_inert by exact H2. cbn [fold_left].
    rewrite hoist_step_optional_traverse.
    rewrite hoist_fold_inert by exact H3. cbn [fold_left].
    rewrite hoist_step_filter_inside.
    rewrite hoist_fold_inert by exact H4. cbn [fold_left].
    rewrite hoist_step_backtrack.
    rewrite hoist_fold_inert by exact H5. cbn [fold_left].
    rewrite hoist_step_backtrack.
    rewrite hoist_fold_inert by exact H6. cbn [fold_left].
    rewrite hoist_step_global_start. cbn.
    repeat (rewrite <- app_assoc; cbn [app]). reflexivity.
Qed.

Lemma scope_flag_recomputed_at_backtrack_witness :
  forallb is_inert [QueryRoot; MarkLocation loc_A] = true /\
  forallb is_inert [MarkLocation loc_B] = true /\
  forallb is_inert [MarkLocation loc_C] = true /\
  optional_scopes_depth (get_location_info example_metadata loc_B) > 0 /\
  move_filters_in_optional_locations_to_global_operations
    ([QueryRoot; MarkLocation loc_A]
       ++ Traverse "out" "Animal_ParentOf" true :: [MarkLocation loc_B]
       ++ Traverse "out" "Animal_OfSpecies" true :: []
       ++ Filter (ContextField (navigate_to_field loc_C "name") "String")
       :: [MarkLocation loc_C] ++ Backtrack loc_B :: []
       ++ Filter (ContextField (navigate_to_field loc_B "name") "String") :: []
       ++ Backtrack loc_A :: [] ++ [GlobalOperationsStart]) example_metadata
  = [QueryRoot; MarkLocation loc_A]
      ++ Traverse "out" "Animal_ParentOf" true :: [MarkLocation loc_B]
      ++ Traverse "out" "Animal_OfSpecies" true :: []
      ++ [MarkLocation loc_C] ++ Backtrack loc_B :: []
      ++ [] ++ Backtrack loc_A :: []
      ++ [GlobalOperationsStart;
          Filter (ContextField (navigate_to_field loc_C "name") "String");
          Filter (ContextField (navigate_to_field loc_B "name") "String")].
Proof.
  split; [reflexivity |]. split; [reflexivity |]. split; [reflexivity |].
  split; [reflexivity |].
  apply (proj1 (proj2 (scope_flag_recomputed_at_backtrack example_metadata)));
    reflexivity.
Defined.

(** * Further properties of the passes *)

(** ** Pass 1: faults and fixed points *)

Lemma reaches_mark_location_lookup_next (rest : list Block) :
  reaches_mark_location rest = true ->
  lookup_next rest = NextCoerceType \/ exists location, lookup_next rest = NextMarkLocation location.
Proof.
  induction rest as [|x rest IH]; [discriminate |].
  destruct x; simpl; try discriminate; eauto.
Qed.

Lemma reaches_mark_location_insert (qmt : QueryMetadataTable) (rest out : list Block) :
  insert_explicit_type_bounds rest qmt = Ok out ->
  reaches_mark_location out = reaches_mark_location rest.
Proof.
  revert out. induction rest as [|x rest IH]; intros out H.
  - injection H as <-. reflexivity.
  - apply insert_cons_Ok in H as (appended & new_rest & Happ & Hrest & ->).
    destruct x; try reflexivity; simpl in Happ; injection Happ as <-; simpl;
      apply IH, Hrest.
Qed.

(** X1. On an input in which every Traverse, Fold and Recurse block is
    followed, over Filter and CoerceType blocks only, by a MarkLocation, the
    pass does not raise, and its output has the same property. *)
Theorem insert_explicit_type_bounds_legal_input (qmt : QueryMetadataTable)
    (ir_blocks : list Block) :
  legal_block_order ir_blocks = true ->
  exists out,
    insert_explicit_type_bounds ir_blocks qmt = Ok out /\ legal_block_order out = true.
Proof.
  induction ir_blocks as [|x rest IH]; intros Hlegal.
  - exists []. done.
  - simpl in Hlegal. apply andb_prop in Hlegal as [Hx Hrest].
    destruct (IH Hrest) as (new_rest & Hins & Hnew).
    pose proof (reaches_mark_location_insert qmt rest new_rest Hins) as Hreach.
    destruct (is_traversal x) eqn:Htrav.
    + destruct (reaches_mark_location_lookup_next rest Hx) as [Hnext | [location Hnext]].
      * exists (x :: new_rest). split.
        -- apply insert_cons_Ok. exists [], new_rest. rewrite Htrav.
           unfold type_bound_for. rewrite Hnext. done.
        -- simpl. rewrite Htrav, Hreach, Hx, Hnew. reflexivity.
      * exists (x :: CoerceType {[ type_name (get_location_info qmt location) ]} :: new_rest).
        split.
        -- apply insert_cons_Ok. eexists [_], new_rest. rewrite Htrav.
           unfold type_bound_for. rewrite Hnext. done.
        -- simpl. rewrite Htrav, Hreach, Hx, Hnew. reflexivity.
    + exists (x :: new_rest). split.
      * rewrite insert_not_traversal, Hins by exact Htrav. reflexivity.
      * simpl. rewrite Htrav, Hnew. reflexivity.
Qed.

Lemma insert_explicit_type_bounds_legal_input_witness :
  legal_block_order example_blocks = true /\
  exists out,
    insert_explicit_type_bounds example_blocks example_metadata = Ok out /\
    legal_block_order out = true.
Proof.
  split; [reflexivity |].
  apply (insert_explicit_type_bounds_legal_input example_metadata example_blocks).
  reflexivity.
Defined.

Lemma insert_no_missing_type_bounds (qmt : QueryMetadataTable) (ir_blocks out : list Block) :
  insert_explicit_type_bounds ir_blocks qmt = Ok out ->
  count_missing_type_bounds out = 0%nat.
Proof.
  revert out. induction ir_blocks as [|x rest IH]; intros out H.
  - injection H as <-. reflexivity.
  - apply insert_cons_Ok in H as (appended & new_rest & Happ & Hrest & ->).
    pose proof (IH new_rest Hrest) as Hcount.
    pose proof (lookup_next_insert qmt rest new_rest Hrest) as Hnext.
    destruct (is_traversal x) eqn:Htrav.
    + unfold type_bound_for in Happ.
      destruct (lookup_next rest) eqn:E; try discriminate; injection Happ as <-; simpl.
      * unfold has_type_bound. rewrite Htrav, Hnext, Hcount. reflexivity.
      * rewrite Htrav, Hcount. reflexivity.
    + injection Happ as <-. simpl. rewrite Htrav, Hcount. reflexivity.
Qed.

(** X2. In the output of a successful run every Traverse, Fold and Recurse
    block is followed, over Filter blocks only, by a CoerceType block. *)
Theorem insert_explicit_type_bounds_postcondition (qmt : QueryMetadataTable)
    (ir_blocks out : list Block) :
  insert_explicit_type_bounds ir_blocks qmt = Ok out ->
  count_missing_type_bounds out = 0%nat /\
  forall pre block post,
    out = pre ++ block :: post -> is_traversal block = true ->
    lookup_next post = NextCoerceType.
Proof.
  intros H. pose proof (insert_no_missing_type_bounds qmt ir_blocks out H) as Hcount.
  split; [exact Hcount |].
  clear H. intros pre block post -> Htrav.
  induction pre as [|x pre IH]; simpl in Hcount.
  - rewrite Htrav in Hcount. unfold has_type_bound in Hcount.
    destruct (lookup_next post); simpl in Hcount; try discriminate. reflexivity.
  - apply IH. lia.
Qed.

Lemma insert_explicit_type_bounds_postcondition_witness :
  exists out,
    insert_explicit_type_bounds example_blocks example_metadata = Ok out /\
    count_missing_type_bounds out = 0%nat.
Proof.
  eexists. split; [reflexivity |].
  apply (insert_explicit_type_bounds_postcondition example_metadata example_blocks).
  reflexivity.
Defined.

Lemma insert_all_bounded (qmt : QueryMetadataTable) (ir_blocks : list Block) :
  count_missing_type_bounds ir_blocks = 0%nat ->
  insert_explicit_type_bounds ir_blocks qmt = Ok ir_blocks.
Proof.
  induction ir_blocks as [|x rest IH]; intros Hcount; [reflexivity |].
  simpl in Hcount. apply insert_cons_Ok. exists [], rest.
  split; [| split; [apply IH; lia | reflexivity]].
  destruct (is_traversal x); [| reflexivity].
  unfold has_type_bound in Hcount. unfold type_bound_for.
  destruct (lookup_next rest); simpl in Hcount; try lia. reflexivity.
Qed.

(** X3. The pass returns its input unchanged exactly when every Traverse,
    Fold and Recurse block of the input already has its CoerceType. *)
Theorem insert_explicit_type_bounds_fixed_point (qmt : QueryMetadataTable)
    (ir_blocks : list Block) :
  insert_explicit_type_bounds ir_blocks qmt = Ok ir_blocks <->
  count_missing_type_bounds ir_blocks = 0%nat.
Proof.
  split.
  - intros H. apply insert_length in H. lia.
  - apply insert_all_bounded.
Qed.

Lemma insert_explicit_type_bounds_fixed_point_witness :
  count_missing_type_bounds
    [QueryRoot; MarkLocation loc_A; Traverse "out" "Animal_ParentOf" true; name_filter;
     CoerceType {[ "Animal" ]}; MarkLocation loc_B] = 0%nat /\
  insert_explicit_type_bounds
    [QueryRoot; MarkLocation loc_A; Traverse "out" "Animal_ParentOf" true; name_filter;
     CoerceType {[ "Animal" ]}; MarkLocation loc_B] example_metadata
  = Ok [QueryRoot; MarkLocation loc_A; Traverse "out" "Animal_ParentOf" true; name_filter;
        CoerceType {[ "Animal" ]}; MarkLocation loc_B].
Proof.
  split; [reflexivity |].
  apply (insert_explicit_type_bounds_fixed_point example_metadata). reflexivity.
Defined.

Lemma lookup_next_mark_location_elem_of (rest : list Block) (location : Location) :
  lookup_next rest = NextMarkLocation location -> MarkLocation location ∈ rest.
Proof.
  intros (filters & tl & -> & _)%lookup_next_mark_location_inv.
  apply elem_of_app. right. by left.
Qed.

(** X4. The pass reads the metadata table only for the declared type of
    the locations marked in its input: two tables that agree on those types
    give the same result. *)
Theorem insert_explicit_type_bounds_metadata (qmt1 qmt2 : QueryMetadataTable)
    (ir_blocks : list Block) :
  (forall location,
     MarkLocation location ∈ ir_blocks ->
     type_name (get_location_info qmt1 location)
     = type_name (get_location_info qmt2 location)) ->
  insert_explicit_type_bounds ir_blocks qmt1 = insert_explicit_type_bounds ir_blocks qmt2.
Proof.
  induction ir_blocks as [|x rest IH]; intros Hagree; [reflexivity |].
  simpl. rewrite IH by (intros l Hl; apply Hagree; by right).
  replace (type_bound_for qmt1 rest) with (type_bound_for qmt2 rest); [reflexivity |].
  unfold type_bound_for. destruct (lookup_next rest) eqn:E; try reflexivity.
  rewrite Hagree; [reflexivity |]. right. by apply lookup_next_mark_location_elem_of.
Qed.

Lemma insert_explicit_type_bounds_metadata_witness :
  (forall location,
     MarkLocation location ∈ example_blocks ->
     type_name (get_location_info example_metadata location)
     = type_name (get_location_info flat_metadata location)) /\
  insert_explicit_type_bounds example_blocks example_metadata
  = insert_explicit_type_bounds example_blocks flat_metadata.
Proof.
  split; [reflexivity |].
  apply (insert_explicit_type_bounds_metadata example_metadata flat_metadata example_blocks).
  reflexivity.
Defined.

(** ** Pass 3: a closed form, and what the pass leaves alone *)

Lemma resolve_block_not_mark (L : Location) (block : Block) :
  is_mark_location (resolve_block L block) = is_mark_location block.
Proof. destruct block; reflexivity. Qed.

Lemma rewrite_run_closed_form (blocks pending : list Block) :
  rewrite_run pending blocks
  = match next_mark_location blocks with
    | Some L => map (resolve_block L) pending
    | None => pending
    end ++ resolve_at_next_mark blocks.
Proof.
  revert pending. induction blocks as [|x rest IH]; intros pending.
  - simpl. by rewrite app_nil_r.
  - assert (Hother : is_mark_location x = false ->
              rewrite_run (pending ++ [x]) rest
              = match next_mark_location rest with
                | Some L => map (resolve_block L) pending
                | None => pending
                end ++ match next_mark_location rest with
                       | Some L => resolve_block L x
                       | None => x
                       end :: resolve_at_next_mark rest).
    { intros _. rewrite IH. destruct (next_mark_location rest);
        rewrite ?map_app, <- app_assoc; reflexivity. }
    destruct x; try (apply Hother; reflexivity).
    simpl. rewrite (IH []).
    replace (match next_mark_location rest with
             | Some L => map (resolve_block L) []
             | None => []
             end) with (@nil Block) by (by destruct (next_mark_location rest)).
    simpl. f_equal. apply map_ext. intros b. apply visit_block_visitor_func_base.
Qed.

(** X5. The pass always succeeds, and rewrites each block against the first
    MarkLocation found after it, whatever comes before: a LocalField becomes
    a field of that location, and a block that no MarkLocation follows is
    returned as it is. *)
Theorem replace_local_fields_closed_form (ir_blocks : list Block) :
  replace_local_fields_with_context_fields ir_blocks = Ok (resolve_at_next_mark ir_blocks).
Proof. rewrite replace_local_fields_Ok, rewrite_run_closed_form. by destruct next_mark_location. Qed.

Lemma resolve_block_idempotent (L L' : Location) (block : Block) :
  resolve_block L' (resolve_block L block) = resolve_block L block.
Proof.
  destruct block; try reflexivity. simpl. f_equal.
  apply resolve_local_fields_id, resolve_local_fields_none.
Qed.

Lemma next_mark_location_resolve (blocks : list Block) :
  next_mark_location (resolve_at_next_mark blocks) = next_mark_location blocks.
Proof.
  induction blocks as [|x rest IH]; [reflexivity |].
  destruct x; cbn; try (destruct (next_mark_location rest); cbn; exact IH);
    reflexivity.
Qed.

Lemma resolve_at_next_mark_idempotent (blocks : list Block) :
  resolve_at_next_mark (resolve_at_next_mark blocks) = resolve_at_next_mark blocks.
Proof.
  induction blocks as [|x rest IH]; [reflexivity |].
  change (resolve_at_next_mark (x :: rest))
    with (match next_mark_location (x :: rest) with
          | Some L => resolve_block L x
          | None => x
          end :: resolve_at_next_mark rest).
  pose proof (next_mark_location_resolve (x :: rest)) as Hnext.
  change (resolve_at_next_mark (x :: rest))
    with (match next_mark_location (x :: rest) with
          | Some L => resolve_block L x
          | None => x
          end :: resolve_at_next_mark rest) in Hnext.
  cbn [resolve_at_next_mark]. rewrite Hnext, IH. f_equal.
  destruct (next_mark_location (x :: rest)); [| reflexivity].
  apply resolve_block_idempotent.
Qed.

(** X6. Running the pass on its own output returns that output. *)
Theorem replace_local_fields_idempotent (ir_blocks out : list Block) :
  replace_local_fields_with_context_fields ir_blocks = Ok out ->
  replace_local_fields_with_context_fields out = Ok out.
Proof.
  rewrite replace_local_fields_Ok, rewrite_run_closed_form.
  intros [= <-]. rewrite replace_local_fields_Ok, rewrite_run_closed_form.
  destruct (next_mark_location ir_blocks), (next_mark_location _); simpl;
    by rewrite resolve_at_next_mark_idempotent.
Qed.

Lemma replace_local_fields_idempotent_witness :
  exists out,
    replace_local_fields_with_context_fields example_blocks = Ok out /\
    replace_local_fields_with_context_fields out = Ok out.
Proof.
  eexists. split; [reflexivity |].
  apply (replace_local_fields_idempotent example_blocks). reflexivity.
Defined.

Lemma resolve_block_same_place (L : Location) (block : Block) :
  same_place block (resolve_block L block).
Proof. unfold same_place. destruct block; reflexivity. Qed.

Lemma resolve_at_next_mark_same_place (blocks : list Block) :
  Forall2 same_place blocks (resolve_at_next_mark blocks).
Proof.
  induction blocks as [|x rest IH]; [constructor |].
  cbn [resolve_at_next_mark]. constructor; [| exact IH].
  destruct (next_mark_location (x :: rest)).
  - apply resolve_block_same_place.
  - unfold same_place. destruct x; reflexivity.
Qed.

(** X7. The pass changes nothing but the predicates of Filter blocks: the
    output has a Filter wherever the input has one, and at every other
    position the very block of the input. *)
Theorem replace_local_fields_same_place (ir_blocks out : list Block) :
  replace_local_fields_with_context_fields ir_blocks = Ok out ->
  Forall2 same_place ir_blocks out /\
  forall (i : nat) (block : Block),
    ir_blocks !! i = Some block -> is_filter block = false -> out !! i = Some block.
Proof.
  rewrite replace_local_fields_Ok, rewrite_run_closed_form.
  replace (match next_mark_location ir_blocks with
           | Some L => map (resolve_block L) []
           | None => []
           end) with (@nil Block) by (by destruct (next_mark_location ir_blocks)).
  intros [= <-]. pose proof (resolve_at_next_mark_same_place ir_blocks) as Hsame.
  split; [exact Hsame |].
  intros i block Hi Hfilter.
  destruct (Forall2_lookup_l _ _ _ _ _ Hsame Hi) as (after & Hafter & Hplace).
  unfold same_place in Hplace. rewrite Hfilter in Hplace. by subst after.
Qed.

Lemma replace_local_fields_same_place_witness :
  exists out,
    replace_local_fields_with_context_fields example_blocks = Ok out /\
    Forall2 same_place example_blocks out.
Proof.
  eexists. split; [reflexivity |].
  apply (replace_local_fields_same_place example_blocks). reflexivity.
Defined.

Lemma resolve_block_id (L : Location) (block : Block) :
  block_has_local_field block = false -> resolve_block L block = block.
Proof.
  destruct block; try reflexivity. simpl. intros H. f_equal.
  by apply resolve_local_fields_id.
Qed.

(** X8. An input that holds no LocalField is returned unchanged. *)
Theorem replace_local_fields_nothing_to_resolve (ir_blocks : list Block) :
  existsb block_has_local_field ir_blocks = false ->
  replace_local_fields_with_context_fields ir_blocks = Ok ir_blocks.
Proof.
  intros Hnone. rewrite replace_local_fields_Ok, rewrite_run_closed_form.
  replace (match next_mark_location ir_blocks with
           | Some L => map (resolve_block L) []
           | None => []
           end) with (@nil Block) by (by destruct (next_mark_location ir_blocks)).
  simpl. f_equal.
  induction ir_blocks as [|x rest IH]; [reflexivity |].
  simpl in Hnone. apply orb_false_elim in Hnone as [Hx Hrest].
  cbn [resolve_at_next_mark]. rewrite (IH Hrest). f_equal.
  destruct (next_mark_location (x :: rest)); [| reflexivity].
  by apply resolve_block_id.
Qed.

Lemma replace_local_fields_nothing_to_resolve_witness :
  existsb block_has_local_field late_filter_blocks = false /\
  replace_local_fields_with_context_fields late_filter_blocks = Ok late_filter_blocks.
Proof.
  split; [reflexivity |].
  apply (replace_local_fields_nothing_to_resolve late_filter_blocks). reflexivity.
Defined.

(** ** Pass 4: what moves and what stays *)

Lemma strip_filters_app (xs ys : list Block) :
  strip_filters (xs ++ ys) = strip_filters xs ++ strip_filters ys.
Proof. apply List.filter_app. Qed.

Lemma strip_filters_hoisted (qmt : QueryMetadataTable) (blocks : list Block) (inside : bool) :
  strip_filters (hoisted qmt inside blocks) = [].
Proof.
  revert inside. induction blocks as [|x rest IH]; intros inside; [reflexivity |].
  simpl. rewrite strip_filters_app, IH, app_nil_r.
  destruct inside, x; reflexivity.
Qed.

Lemma hoist_fold_strip_filters (qmt : QueryMetadataTable) (blocks : list Block)
    (st : HoistState) :
  strip_filters (mv_global_filters st) = [] ->
  strip_filters (mv_new_ir_blocks (fold_left (hoist_step qmt) blocks st))
  = strip_filters (mv_new_ir_blocks st) ++ strip_filters blocks /\
  strip_filters (mv_global_filters (fold_left (hoist_step qmt) blocks st)) = [].
Proof.
  revert st. induction blocks as [|x rest IH]; intros st Hgf.
  - simpl. by rewrite app_nil_r.
  - simpl fold_left.
    assert (Hstep : strip_filters (mv_new_ir_blocks (hoist_step qmt st x))
                    = strip_filters (mv_new_ir_blocks st) ++ strip_filters [x] /\
                    strip_filters (mv_global_filters (hoist_step qmt st x)) = []).
    { destruct (is_global_operations_start x) eqn:Hx.
      - destruct x; try discriminate. rewrite hoist_step_global_start. simpl.
        rewrite strip_filters_app. unfold strip_filters at 2. simpl.
        fold (strip_filters (mv_global_filters st)). by rewrite Hgf.
      - destruct (hoist_step_not_global_start qmt st x Hx) as [-> ->].
        rewrite !strip_filters_app, Hgf.
        destruct (within_optional_scope st), x; done. }
    destruct Hstep as [Hnew Hgf'].
    destruct (IH _ Hgf') as [-> ->]. rewrite Hnew, <- app_assoc.
    split; [| reflexivity]. f_equal.
    symmetry. apply (strip_filters_app [x] rest).
Qed.

Lemma move_filters_strip_filters (qmt : QueryMetadataTable) (ir_blocks : list Block) :
  strip_filters (move_filters_in_optional_locations_to_global_operations ir_blocks qmt)
  = strip_filters ir_blocks.
Proof.
  unfold move_filters_in_optional_locations_to_global_operations.
  by destruct (hoist_fold_strip_filters qmt ir_blocks hoist_init eq_refl) as [-> _].
Qed.

(** X9. The pass never drops, adds or reorders a block other than a
    Filter: the other blocks of the output are those of the input, in the
    same order. *)
Theorem move_filters_keeps_other_blocks (qmt : QueryMetadataTable)
    (ir_blocks : list Block) :
  strip_filters (move_filters_in_optional_locations_to_global_operations ir_blocks qmt)
  = strip_filters ir_blocks.
Proof. apply move_filters_strip_filters. Qed.

Lemma hoist_fold_permutation (qmt : QueryMetadataTable) (blocks : list Block)
    (st : HoistState) :
  mv_new_ir_blocks (fold_left (hoist_step qmt) blocks st)
    ++ mv_global_filters (fold_left (hoist_step qmt) blocks st)
  ≡ₚ mv_new_ir_blocks st ++ mv_global_filters st ++ blocks.
Proof.
  revert st. induction blocks as [|x rest IH]; intros st.
  - simpl. by rewrite app_nil_r.
  - simpl fold_left. rewrite IH.
    destruct (is_global_operations_start x) eqn:Hx.
    + destruct x; try discriminate. rewrite hoist_step_global_start. simpl.
      solve_Permutation.
    + destruct (hoist_step_not_global_start qmt st x Hx) as [-> ->].
      destruct (within_optional_scope st && is_filter x); solve_Permutation.
Qed.

(** X10. The pass neither invents nor duplicates a block: its output,
    together with the Filters still pending when it returns, is a
    rearrangement of the input.  On an input that ends with
    GlobalOperationsStart nothing is pending, and the output is a
    rearrangement of the input. *)
Theorem move_filters_rearranges (qmt : QueryMetadataTable) :
  (forall ir_blocks,
     move_filters_in_optional_locations_to_global_operations ir_blocks qmt
       ++ mv_global_filters (fold_left (hoist_step qmt) ir_blocks hoist_init)
     ≡ₚ ir_blocks) /\
  (forall ir_blocks,
     move_filters_in_optional_locations_to_global_operations ir_blocks qmt ⊆+ ir_blocks) /\
  (forall ir_blocks,
     move_filters_in_optional_locations_to_global_operations
       (ir_blocks ++ [GlobalOperationsStart]) qmt
     ≡ₚ ir_blocks ++ [GlobalOperationsStart]).
Proof.
  split; [| split].
  - intros ir_blocks. unfold move_filters_in_optional_locations_to_global_operations.
    by rewrite hoist_fold_permutation.
  - intros ir_blocks. unfold move_filters_in_optional_locations_to_global_operations.
    rewrite <- (hoist_fold_permutation qmt ir_blocks hoist_init) at 2.
    by apply submseteq_inserts_r.
  - intros ir_blocks.
    pose proof (hoist_fold_permutation qmt (ir_blocks ++ [GlobalOperationsStart]) hoist_init)
      as Hperm.
    unfold move_filters_in_optional_locations_to_global_operations.
    rewrite fold_left_app in Hperm |- *. simpl fold_left in Hperm |- *.
    rewrite hoist_step_global_start in Hperm |- *. simpl in Hperm |- *.
    by rewrite app_nil_r in Hperm.
Qed.

Lemma hoist_fold_no_optional_scope (qmt : QueryMetadataTable) (blocks n : list Block) :
  no_optional_scope qmt blocks = true ->
  fold_left (hoist_step qmt) blocks
    {| mv_new_ir_blocks := n; mv_global_filters := []; within_optional_scope := false |}
  = {| mv_new_ir_blocks := n ++ blocks; mv_global_filters := [];
       within_optional_scope := false |}.
Proof.
  unfold no_optional_scope. revert n.
  induction blocks as [|x rest IH]; intros n H.
  - simpl. by rewrite app_nil_r.
  - simpl in H. apply andb_prop in H as [Hx Hrest]. apply negb_true_iff in Hx.
    simpl fold_left.
    replace (hoist_step qmt {| mv_new_ir_blocks := n; mv_global_filters := [];
                               within_optional_scope := false |} x)
      with {| mv_new_ir_blocks := n ++ [x]; mv_global_filters := [];
              within_optional_scope := false |}.
    + rewrite IH by exact Hrest. by rewrite <- app_assoc.
    + destruct x as [| ? ? [] | | | | | | |]; try discriminate; try reflexivity;
        simpl in Hx; unfold hoist_step, hoist_branch; simpl; rewrite ?Hx;
        rewrite ?app_nil_r; reflexivity.
Qed.

(** X11. A query without optional scopes (no optional Traverse, no
    Backtrack to a location of positive optional-scope depth) is returned
    unchanged, wherever its GlobalOperationsStart blocks are. *)
Theorem move_filters_no_optional_scope (qmt : QueryMetadataTable)
    (ir_blocks : list Block) :
  no_optional_scope qmt ir_blocks = true ->
  move_filters_in_optional_locations_to_global_operations ir_blocks qmt = ir_blocks.
Proof.
  intros H. unfold move_filters_in_optional_locations_to_global_operations, hoist_init.
  by rewrite hoist_fold_no_optional_scope.
Qed.

Lemma move_filters_no_optional_scope_witness :
  no_optional_scope example_metadata
    [QueryRoot; name_filter; MarkLocation loc_A; Traverse "out" "Animal_ParentOf" false;
     name_filter; MarkLocation loc_B; Backtrack loc_A; GlobalOperationsStart] = true /\
  move_filters_in_optional_locations_to_global_operations
    [QueryRoot; name_filter; MarkLocation loc_A; Traverse "out" "Animal_ParentOf" false;
     name_filter; MarkLocation loc_B; Backtrack loc_A; GlobalOperationsStart]
    example_metadata
  = [QueryRoot; name_filter; MarkLocation loc_A; Traverse "out" "Animal_ParentOf" false;
     name_filter; MarkLocation loc_B; Backtrack loc_A; GlobalOperationsStart].
Proof.
  split; [reflexivity |].
  apply (move_filters_no_optional_scope example_metadata). reflexivity.
Defined.

Lemma hoisted_kept (qmt : QueryMetadataTable) (blocks : list Block) (inside : bool) :
  hoisted qmt inside (kept qmt inside blocks) = [] /\
  kept qmt inside (kept qmt inside blocks) = kept qmt inside blocks /\
  scope_after qmt inside (kept qmt inside blocks) = scope_after qmt inside blocks.
Proof.
  revert inside. induction blocks as [|x rest IH]; intros inside; [done |].
  destruct (IH (scope_step qmt inside x)) as (Hh & Hk & Hs).
  simpl. destruct (inside && is_filter x) eqn:E; simpl.
  - apply andb_prop in E as [-> Hx]. destruct x; try discriminate. exact (IH true).
  - rewrite E. simpl. rewrite Hh, Hk. done.
Qed.

Lemma no_global_operations_start_kept (qmt : QueryMetadataTable) (blocks : list Block)
    (inside : bool) :
  no_global_operations_start blocks = true ->
  no_global_operations_start (kept qmt inside blocks) = true /\
  no_global_operations_start (hoisted qmt inside blocks) = true.
Proof.
  unfold no_global_operations_start. revert inside.
  induction blocks as [|x rest IH]; intros inside H; [done |].
  simpl in H. apply andb_prop in H as [Hx Hrest].
  destruct (IH (scope_step qmt inside x) Hrest) as [Hk Hh].
  simpl. rewrite !forallb_app, Hk, Hh.
  destruct (inside && is_filter x); simpl; rewrite ?Hx; done.
Qed.

Lemma outside_filters_kept (qmt : QueryMetadataTable) (filters rest : list Block) :
  strip_filters filters = [] ->
  kept qmt false (filters ++ rest) = filters ++ kept qmt false rest /\
  hoisted qmt false (filters ++ rest) = hoisted qmt false rest.
Proof.
  induction filters as [|x filters IH]; intros H; [done |].
  destruct x; try discriminate. simpl in *.
  destruct (IH H) as [-> ->]. done.
Qed.

(** X12. If the optional scopes are all closed when the single
    GlobalOperationsStart is reached, running the pass on its own output
    returns that output: the Filters moved after GlobalOperationsStart stay
    where they were put. *)
Theorem move_filters_idempotent (qmt : QueryMetadataTable) (pre post : list Block) :
  no_global_operations_start pre = true ->
  no_global_operations_start post = true ->
  scope_after qmt false pre = false ->
  move_filters_in_optional_locations_to_global_operations
    (move_filters_in_optional_locations_to_global_operations
       (pre ++ GlobalOperationsStart :: post) qmt) qmt
  = move_filters_in_optional_locations_to_global_operations
      (pre ++ GlobalOperationsStart :: post) qmt.
Proof.
  intros Hpre Hpost Hclosed.
  rewrite (move_filters_single_global_start qmt pre post Hpre Hpost), Hclosed.
  destruct (no_global_operations_start_kept qmt pre false Hpre) as [Hkpre Hhpre].
  destruct (no_global_operations_start_kept qmt post false Hpost) as [Hkpost _].
  destruct (hoisted_kept qmt pre false) as (Hh & Hk & Hs).
  destruct (hoisted_kept qmt post false) as (_ & Hk' & _).
  rewrite move_filters_single_global_start.
  - rewrite Hh, Hk, Hs, Hclosed. simpl.
    destruct (outside_filters_kept qmt (hoisted qmt false pre) (kept qmt false post)
                (strip_filters_hoisted qmt pre false)) as [-> _].
    by rewrite Hk'.
  - exact Hkpre.
  - unfold no_global_operations_start in *. by rewrite forallb_app, Hhpre, Hkpost.
Qed.

Lemma move_filters_idempotent_witness :
  no_global_operations_start
    [QueryRoot; MarkLocation loc_A; Traverse "out" "Animal_ParentOf" true;
     Filter (ContextField (navigate_to_field loc_B "name") "String");
     MarkLocation loc_B; Backtrack loc_A] = true /\
  no_global_operations_start [Filter (Literal "$enabled")] = true /\
  scope_after example_metadata false
    [QueryRoot; MarkLocation loc_A; Traverse "out" "Animal_ParentOf" true;
     Filter (ContextField (navigate_to_field loc_B "name") "String");
     MarkLocation loc_B; Backtrack loc_A] = false /\
  move_filters_in_optional_locations_to_global_operations
    (move_filters_in_optional_locations_to_global_operations
       ([QueryRoot; MarkLocation loc_A; Traverse "out" "Animal_ParentOf" true;
         Filter (ContextField (navigate_to_field loc_B "name") "String");
         MarkLocation loc_B; Backtrack loc_A]
          ++ GlobalOperationsStart :: [Filter (Literal "$enabled")]) example_metadata)
    example_metadata
  = move_filters_in_optional_locations_to_global_operations
      ([QueryRoot; MarkLocation loc_A; Traverse "out" "Animal_ParentOf" true;
        Filter (ContextField (navigate_to_field loc_B "name") "String");
        MarkLocation loc_B; Backtrack loc_A]
         ++ GlobalOperationsStart :: [Filter (Literal "$enabled")]) example_metadata.
Proof.
  split; [reflexivity |]. split; [reflexivity |]. split; [reflexivity |].
  apply (move_filters_idempotent example_metadata); reflexivity.
Defined.

(** X13. The pass reads the metadata table only for the sign of the
    optional-scope depth of the locations its Backtrack blocks return to:
    two tables that agree there give the same output. *)
Theorem move_filters_metadata (qmt1 qmt2 : QueryMetadataTable) (ir_blocks : list Block) :
  (forall location,
     Backtrack location ∈ ir_blocks ->
     bool_decide (optional_scopes_depth (get_location_info qmt1 location) > 0)
     = bool_decide (optional_scopes_depth (get_location_info qmt2 location) > 0)) ->
  move_filters_in_optional_locations_to_global_operations ir_blocks qmt1
  = move_filters_in_optional_locations_to_global_operations ir_blocks qmt2.
Proof.
  intros Hagree. unfold move_filters_in_optional_locations_to_global_operations.
  f_equal. generalize hoist_init as st. revert Hagree.
  induction ir_blocks as [|x rest IH]; intros Hagree st; [reflexivity |].
  simpl. rewrite IH by (intros l Hl; apply Hagree; by right). f_equal.
  destruct x; try reflexivity.
  unfold hoist_step, hoist_branch. simpl.
  rewrite (Hagree location) by (by left). reflexivity.
Qed.

Lemma move_filters_metadata_witness :
  (forall location,
     Backtrack location ∈ example_blocks ->
     bool_decide (optional_scopes_depth (get_location_info example_metadata location) > 0)
     = bool_decide (optional_scopes_depth (get_location_info flat_metadata location) > 0)) /\
  move_filters_in_optional_locations_to_global_operations example_blocks example_metadata
  = move_filters_in_optional_locations_to_global_operations example_blocks flat_metadata.
Proof.
  assert (H : forall location,
     Backtrack location ∈ example_blocks ->
     bool_decide (optional_scopes_depth (get_location_info example_metadata location) > 0)
     = bool_decide (optional_scopes_depth (get_location_info flat_metadata location) > 0)).
  { intros location Hin. unfold example_blocks in Hin.
    repeat (apply elem_of_cons in Hin as [Hin | Hin]; [try discriminate |]).
    - injection Hin as ->. reflexivity.
    - inversion Hin. }
  split; [exact H |].
  apply (move_filters_metadata example_metadata flat_metadata example_blocks H).
Defined.

Lemma lookup_next_strip_filters (blocks : list Block) :
  lookup_next (strip_filters blocks) = lookup_next blocks.
Proof. induction blocks as [|x rest IH]; [reflexivity |]. destruct x; done. Qed.

Lemma reaches_mark_location_strip_filters (blocks : list Block) :
  reaches_mark_location (strip_filters blocks) = reaches_mark_location blocks.
Proof.
  induction blocks as [|x rest IH]; [reflexivity |]. destruct x; done.
Qed.

Lemma legal_block_order_strip_filters (blocks : list Block) :
  legal_block_order (strip_filters blocks) = legal_block_order blocks.
Proof.
  induction blocks as [|x rest IH]; [reflexivity |].
  pose proof (reaches_mark_location_strip_filters rest) as Hreach.
  unfold strip_filters in *. destruct x; simpl; rewrite ?Hreach, ?IH; reflexivity.
Qed.

Lemma count_missing_type_bounds_strip_filters (blocks : list Block) :
  count_missing_type_bounds (strip_filters blocks) = count_missing_type_bounds blocks.
Proof.
  induction blocks as [|x rest IH]; [reflexivity |].
  pose proof (lookup_next_strip_filters rest) as Hnext.
  unfold strip_filters, has_type_bound in *.
  destruct x; simpl; unfold has_type_bound; rewrite ?Hnext, ?IH; reflexivity.
Qed.

(** X14. Hoisting Filters breaks neither the block order of section 3 nor
    the type bounds of pass 1: the output is legal exactly when the input
    is, and as many Traverse/Fold/Recurse blocks lack a CoerceType in the
    output as in the input. *)
Theorem move_filters_keeps_block_order (qmt : QueryMetadataTable) (ir_blocks : list Block) :
  legal_block_order (move_filters_in_optional_locations_to_global_operations ir_blocks qmt)
  = legal_block_order ir_blocks /\
  count_missing_type_bounds
    (move_filters_in_optional_locations_to_global_operations ir_blocks qmt)
  = count_missing_type_bounds ir_blocks.
Proof.
  split.
  - rewrite <- legal_block_order_strip_filters, move_filters_strip_filters.
    apply legal_block_order_strip_filters.
  - rewrite <- count_missing_type_bounds_strip_filters, move_filters_strip_filters.
    apply count_missing_type_bounds_strip_filters.
Qed.

(** ** The passes in sequence *)

Lemma lookup_next_drop_revisits (m : gmap Location Location)
    (visitor_fn : Expression -> Expression) (rest : list Block) :
  lookup_next rest = NextCoerceType ->
  lookup_next (drop_revisits m visitor_fn rest) = NextCoerceType.
Proof.
  induction rest as [|x rest IH]; [discriminate |].
  destruct x; try discriminate; simpl; auto.
Qed.

Lemma count_missing_type_bounds_drop_revisits (m : gmap Location Location)
    (visitor_fn : Expression -> Expression) (blocks : list Block) :
  (count_missing_type_bounds (drop_revisits m visitor_fn blocks)
   <= count_missing_type_bounds blocks)%nat.
Proof.
  induction blocks as [|x rest IH]; [reflexivity |].
  simpl. destruct (is_revisit_mark_location m x) eqn:Hx.
  - lia.
  - simpl. replace (is_traversal (visit_and_update_expressions visitor_fn x))
      with (is_traversal x) by (by destruct x).
    destruct (is_traversal x); simpl; [| lia].
    unfold has_type_bound.
    destruct (lookup_next rest) eqn:Hnext; simpl;
      try (destruct (lookup_next (drop_revisits m visitor_fn rest)); simpl; lia).
    rewrite (lookup_next_drop_revisits m visitor_fn rest Hnext). simpl. lia.
Qed.

Lemma same_place_strip_filters (before after : list Block) :
  Forall2 same_place before after -> strip_filters after = strip_filters before.
Proof.
  induction 1 as [| b a before after Hplace _ IH]; [reflexivity |].
  unfold same_place in Hplace. unfold strip_filters in *. simpl.
  destruct (is_filter b) eqn:Hb.
  - rewrite Hplace. simpl. exact IH.
  - subst a. rewrite Hb. simpl. by rewrite IH.
Qed.

Lemma mark_location_strip_filters (blocks : list Block) (location : Location) :
  MarkLocation location ∈ strip_filters blocks <-> MarkLocation location ∈ blocks.
Proof.
  unfold strip_filters. rewrite !list_elem_of_In, List.filter_In. simpl. tauto.
Qed.

(** X15. When pass 1 succeeds, passes 2, 3 and 4 applied in this order to
    its output do not raise, and in the final block sequence every
    Traverse, Fold and Recurse block still has its CoerceType and no
    MarkLocation names a key of the revisit translation map. *)
Theorem lowering_passes_in_sequence (qmt : QueryMetadataTable)
    (ir_blocks typed : list Block) :
  insert_explicit_type_bounds ir_blocks qmt = Ok typed ->
  exists resolved,
    replace_local_fields_with_context_fields
      (remove_mark_location_after_optional_backtrack typed qmt) = Ok resolved /\
    count_missing_type_bounds
      (move_filters_in_optional_locations_to_global_operations resolved qmt) = 0%nat /\
    forall location,
      MarkLocation location
        ∈ move_filters_in_optional_locations_to_global_operations resolved qmt ->
      make_revisit_location_translations qmt !! location = None.
Proof.
  intros Htyped.
  set (renamed := remove_mark_location_after_optional_backtrack typed qmt).
  exists (resolve_at_next_mark renamed).
  assert (Hstrip : strip_filters
                     (move_filters_in_optional_locations_to_global_operations
                        (resolve_at_next_mark renamed) qmt)
                   = strip_filters renamed).
  { rewrite move_filters_strip_filters.
    apply same_place_strip_filters, resolve_at_next_mark_same_place. }
  split; [| split].
  - rewrite replace_local_fields_Ok, rewrite_run_closed_form.
    by destruct (next_mark_location renamed).
  - rewrite <- count_missing_type_bounds_strip_filters, Hstrip,
      count_missing_type_bounds_strip_filters.
    pose proof (insert_no_missing_type_bounds qmt ir_blocks typed Htyped) as Hcount.
    pose proof (count_missing_type_bounds_drop_revisits
                  (make_revisit_location_translations qmt)
                  (make_location_rewriter_visitor_fn (make_revisit_location_translations qmt))
                  typed) as Hle.
    unfold renamed, remove_mark_location_after_optional_backtrack. lia.
  - intros location Hin.
    apply (proj2 (mark_location_strip_filters _ _)) in Hin. rewrite Hstrip in Hin.
    apply (proj1 (mark_location_strip_filters _ _)) in Hin.
    unfold renamed, remove_mark_location_after_optional_backtrack in Hin.
    apply drop_revisits_elem_of in Hin as (b0 & _ & Hb0 & Heq).
    destruct b0; try discriminate. injection Heq as <-.
    simpl in Hb0. apply bool_decide_eq_false in Hb0.
    destruct (make_revisit_location_translations qmt !! location) eqn:E; [| reflexivity].
    exfalso. apply Hb0. eauto.
Qed.

Lemma lowering_passes_in_sequence_witness :
  exists typed resolved,
    insert_explicit_type_bounds backtrack_to_revisit_blocks example_metadata = Ok typed /\
    replace_local_fields_with_context_fields
      (remove_mark_location_after_optional_backtrack typed example_metadata) = Ok resolved /\
    count_missing_type_bounds
      (move_filters_in_optional_locations_to_global_operations resolved example_metadata)
    = 0%nat.
Proof.
  eexists.
  destruct (lowering_passes_in_sequence example_metadata backtrack_to_revisit_blocks _ eq_refl)
    as (resolved & Hresolved & Hcount & _).
  exists resolved. split; [reflexivity |]. split; [exact Hresolved | exact Hcount].
Defined.

(** * Properties of the schema helpers *)

(** ** Matching scalars *)

Lemma pair_set_eq (a b c d : string) :
  c <> d ->
  ({[ a; b ]} : gset string) = {[ c; d ]} <-> (a = c /\ b = d) \/ (a = d /\ b = c).
Proof.
  intros Hcd. split.
  - intros Heq.
    assert (Ha : a ∈ ({[ c; d ]} : gset string)).
    { rewrite <- Heq. apply elem_of_union. left. by apply elem_of_singleton. }
    assert (Hb : b ∈ ({[ c; d ]} : gset string)).
    { rewrite <- Heq. apply elem_of_union. right. by apply elem_of_singleton. }
    assert (Hc : c ∈ ({[ a; b ]} : gset string)).
    { rewrite Heq. apply elem_of_union. left. by apply elem_of_singleton. }
    assert (Hd : d ∈ ({[ a; b ]} : gset string)).
    { rewrite Heq. apply elem_of_union. right. by apply elem_of_singleton. }
    rewrite elem_of_union, !elem_of_singleton in Ha, Hb, Hc, Hd.
    destruct Ha as [-> | ->], Hb as [-> | ->]; auto.
    + exfalso. apply Hcd. by destruct Hd.
    + exfalso. apply Hcd. by destruct Hc.
  - intros [[-> ->] | [-> ->]]; [reflexivity |]. apply (comm_L (∪)).
Qed.

(** X16. Two scalars match exactly when they are equal or are, in either
    order, ID and String, or ID and Int; so the relation is symmetric. *)
Theorem scalars_match_cases (scalar_name1 scalar_name2 : string) :
  (_scalars_match scalar_name1 scalar_name2 = true <->
   scalar_name1 = scalar_name2 \/
   (scalar_name1 = "String" /\ scalar_name2 = "ID") \/
   (scalar_name1 = "ID" /\ scalar_name2 = "String") \/
   (scalar_name1 = "Int" /\ scalar_name2 = "ID") \/
   (scalar_name1 = "ID" /\ scalar_name2 = "Int")) /\
  _scalars_match scalar_name1 scalar_name2 = _scalars_match scalar_name2 scalar_name1.
Proof.
  assert (Hcases : forall a b,
            _scalars_match a b = true <->
            a = b \/ (a = "String" /\ b = "ID") \/ (a = "ID" /\ b = "String") \/
            (a = "Int" /\ b = "ID") \/ (a = "ID" /\ b = "Int")).
  { intros a b. unfold _scalars_match.
    case_bool_decide as Hab; [tauto |].
    destruct (bool_decide (_ = {[ "String"; "ID" ]})) eqn:E1; simpl.
    - apply bool_decide_eq_true in E1. apply pair_set_eq in E1; [| done]. tauto.
    - apply bool_decide_eq_false in E1. rewrite pair_set_eq in E1 by done.
      destruct (bool_decide (_ = {[ "Int"; "ID" ]})) eqn:E2; simpl.
      + apply bool_decide_eq_true in E2. apply pair_set_eq in E2; [| done]. tauto.
      + apply bool_decide_eq_false in E2. rewrite pair_set_eq in E2 by done.
        split; [discriminate | tauto]. }
  split; [apply Hcases |].
  destruct (_scalars_match scalar_name1 scalar_name2) eqn:E12,
           (_scalars_match scalar_name2 scalar_name1) eqn:E21; try reflexivity.
  - apply Hcases in E12. apply not_true_iff_false in E21. exfalso. apply E21, Hcases.
    intuition.
  - apply Hcases in E21. apply not_true_iff_false in E12. exfalso. apply E12, Hcases.
    intuition.
Qed.

(** ** Definitions of the merged schema *)

Section ProcessDefinitionsFacts.

Context {Node : Type} (name_value : Node -> string).

(** X17. The names of the scalars and the names of the types stay apart:
    if no recorded scalar is a recorded type, this still holds after a
    scalar or a type has been merged; the merged name is recorded, and
    none of the earlier records is lost. *)
Theorem process_definitions_keep_names_apart
    (existing_scalars : gset string) (type_name_to_schema_id : gmap string string)
    (merged_schema_ast : list Node) :
  existing_scalars ## dom type_name_to_schema_id ->
  (forall scalar new_scalars new_ast,
     _process_scalar_definition name_value scalar existing_scalars
       type_name_to_schema_id merged_schema_ast = Merged (new_scalars, new_ast) ->
     new_scalars ## dom type_name_to_schema_id /\
     name_value scalar ∈ new_scalars /\
     existing_scalars ⊆ new_scalars) /\
  (forall generic_type schema_id new_types new_ast,
     _process_generic_type_definition name_value generic_type schema_id existing_scalars
       type_name_to_schema_id merged_schema_ast = Merged (new_types, new_ast) ->
     existing_scalars ## dom new_types /\
     new_types !! name_value generic_type = Some schema_id /\
     type_name_to_schema_id ⊆ new_types).
Proof.
  intros Hapart. split.
  - intros scalar new_scalars new_ast. unfold _process_scalar_definition.
    case_bool_decide as Hin.
    + intros [= <- <-]. done.
    + case_bool_decide as Htype; [discriminate |]. intros [= <- <-].
      split; [| set_solver].
      apply disjoint_union_l. split; [exact Hapart |].
      apply disjoint_singleton_l. rewrite elem_of_dom. exact Htype.
  - intros generic_type schema_id new_types new_ast.
    unfold _process_generic_type_definition.
    case_bool_decide as Hin; [discriminate |].
    case_bool_decide as Htype; [discriminate |]. intros [= <- <-].
    split; [| split].
    + rewrite dom_insert_L. apply disjoint_union_r.
      split; [apply disjoint_singleton_r; exact Hin | exact Hapart].
    + apply lookup_insert_eq.
    + apply insert_subseteq. destruct (type_name_to_schema_id !! _) eqn:E; [| done].
      exfalso. apply Htype. eauto.
Qed.

(** X18. A name is merged once: after a type has been merged, merging a
    type or a scalar of the same name raises the name-conflict error;
    after a scalar has been merged, merging a type of the same name raises
    it, while merging a scalar of the same name again changes nothing. *)
Theorem process_definitions_merge_a_name_once
    (existing_scalars : gset string) (type_name_to_schema_id : gmap string string)
    (merged_schema_ast : list Node) :
  (forall generic_type schema_id new_types new_ast,
     _process_generic_type_definition name_value generic_type schema_id existing_scalars
       type_name_to_schema_id merged_schema_ast = Merged (new_types, new_ast) ->
     forall other other_schema_id,
       name_value other = name_value generic_type ->
       _process_generic_type_definition name_value other other_schema_id existing_scalars
         new_types new_ast = MergeRaise SchemaNameConflictError /\
       _process_scalar_definition name_value other existing_scalars new_types new_ast
       = MergeRaise SchemaNameConflictError) /\
  (forall scalar new_scalars new_ast,
     _process_scalar_definition name_value scalar existing_scalars
       type_name_to_schema_id merged_schema_ast = Merged (new_scalars, new_ast) ->
     forall other other_schema_id,
       name_value other = name_value scalar ->
       _process_generic_type_definition name_value other other_schema_id new_scalars
         type_name_to_schema_id new_ast = MergeRaise SchemaNameConflictError /\
       _process_scalar_definition name_value other new_scalars type_name_to_schema_id
         new_ast = Merged (new_scalars, new_ast)).
Proof.
  split.
  - intros generic_type schema_id new_types new_ast.
    unfold _process_generic_type_definition, _process_scalar_definition.
    case_bool_decide as Hin; [discriminate |].
    case_bool_decide as Htype; [discriminate |]. intros [= <- <-].
    intros other other_schema_id ->.
    rewrite (bool_decide_eq_false_2 _ Hin).
    rewrite bool_decide_eq_true_2; [done |].
    rewrite lookup_insert_eq. eauto.
  - intros scalar new_scalars new_ast.
    unfold _process_generic_type_definition, _process_scalar_definition.
    case_bool_decide as Hin.
    + intros [= <- <-]. intros other other_schema_id ->.
      rewrite (bool_decide_eq_true_2 _ Hin). done.
    + case_bool_decide as Htype; [discriminate |]. intros [= <- <-].
      intros other other_schema_id ->.
      rewrite bool_decide_eq_true_2 by set_solver. done.
Qed.

End ProcessDefinitionsFacts.

Section ProcessDirectiveFacts.

Context {Node : Type} (name_value : Node -> string) (print_ast : Node -> string).

(** X19. Merging a directive that is already recorded with the same
    printed definition changes nothing, so a directive can be merged any
    number of times; a directive of the same name with another printed
    definition raises the name-conflict error; no recorded directive is
    ever replaced. *)
Theorem process_directive_definition_again
    (directive : Node) (existing_directives new_directives : gmap string Node)
    (merged_schema_ast new_ast : list Node) :
  _process_directive_definition name_value print_ast directive existing_directives
    merged_schema_ast = Merged (new_directives, new_ast) ->
  _process_directive_definition name_value print_ast directive new_directives new_ast
  = Merged (new_directives, new_ast) /\
  existing_directives ⊆ new_directives /\
  forall other,
    name_value other = name_value directive ->
    print_ast other <> print_ast directive ->
    _process_directive_definition name_value print_ast other new_directives new_ast
    = MergeRaise SchemaNameConflictError.
Proof.
  unfold _process_directive_definition.
  destruct (existing_directives !! name_value directive) as [existing|] eqn:E.
  - case_bool_decide as Hprint; [| discriminate]. intros [= <- <-].
    rewrite E, (bool_decide_eq_true_2 _ Hprint). split; [done |]. split; [done |].
    intros other -> Hother. rewrite E.
    rewrite bool_decide_eq_false_2; [done |]. congruence.
  - intros [= <- <-]. rewrite lookup_insert_eq.
    rewrite bool_decide_eq_true_2 by done. split; [done |].
    split; [by apply insert_subseteq |].
    intros other -> Hother. rewrite lookup_insert_eq.
    rewrite bool_decide_eq_false_2; done.
Qed.

End ProcessDirectiveFacts.

(** ** Edge fields *)

Lemma new_edge_field_name_is_vertex_field (direction edge_name : string) :
  direction = OUTBOUND_EDGE_DIRECTION \/ direction = INBOUND_EDGE_DIRECTION ->
  is_vertex_field_name (String.append direction (String.append "_" edge_name)) = true.
Proof. intros [-> | ->]; destruct edge_name; reflexivity. Qed.

Lemma add_edge_field_Merged (source_type_node new_node : TypeDefinitionNode)
    (sink_type_name source_field_name sink_field_name edge_name direction : string) :
  _add_edge_field source_type_node sink_type_name source_field_name sink_field_name
    edge_name direction = Merged new_node ->
  (direction = OUTBOUND_EDGE_DIRECTION \/ direction = INBOUND_EDGE_DIRECTION) /\
  existsb (fun field =>
             bool_decide (field_node_name field
                          = String.append direction (String.append "_" edge_name)))
    (node_fields source_type_node) = false /\
  node_name new_node = node_name source_type_node /\
  node_fields new_node
  = node_fields source_type_node
      ++ [ {| field_node_name := String.append direction (String.append "_" edge_name);
              field_node_arguments := [];
              field_node_type := ListTypeNode (NamedTypeNode sink_type_name);
              field_node_directives :=
                [ _build_stitch_directive source_field_name sink_field_name ] |} ].
Proof.
  unfold _add_edge_field.
  destruct (bool_decide (direction = OUTBOUND_EDGE_DIRECTION)
            || bool_decide (direction = INBOUND_EDGE_DIRECTION)) eqn:Hdir;
    simpl; [| discriminate].
  destruct (existsb _ (node_fields source_type_node)) eqn:Hclash; [discriminate |].
  intros H. split.
  - apply orb_prop in Hdir as [Hdir | Hdir]; apply bool_decide_eq_true in Hdir; auto.
  - split; [reflexivity |].
    destruct source_type_node; try discriminate; injection H as <-; done.
Qed.

(** X20. When [_add_edge_field] returns, the direction was "out" or "in",
    the node has kept its name and its fields, and one field has been added
    at the end: it is named after the direction and the edge, which makes
    it a vertex field name for [is_vertex_field_name], it is a list of the
    sink type, and it carries the stitch directive of the two fields. *)
Theorem add_edge_field_result (source_type_node new_node : TypeDefinitionNode)
    (sink_type_name source_field_name sink_field_name edge_name direction : string) :
  _add_edge_field source_type_node sink_type_name source_field_name sink_field_name
    edge_name direction = Merged new_node ->
  (direction = OUTBOUND_EDGE_DIRECTION \/ direction = INBOUND_EDGE_DIRECTION) /\
  node_name new_node = node_name source_type_node /\
  exists new_field,
    node_fields new_node = node_fields source_type_node ++ [new_field] /\
    field_node_name new_field = String.append direction (String.append "_" edge_name) /\
    is_vertex_field_name (field_node_name new_field) = true /\
    field_node_type new_field = ListTypeNode (NamedTypeNode sink_type_name) /\
    field_node_directives new_field
    = [ {| directive_node_name := "stitch";
           directive_node_arguments :=
             [ ("source_field", source_field_name); ("sink_field", sink_field_name) ] |} ].
Proof.
  intros H. apply add_edge_field_Merged in H as (Hdir & _ & Hname & Hfields).
  split; [exact Hdir |]. split; [exact Hname |].
  eexists. split; [exact Hfields |]. simpl.
  split; [reflexivity |]. split; [| done].
  by apply new_edge_field_name_is_vertex_field.
Qed.

Lemma add_edge_field_result_witness :
  exists new_node,
    _add_edge_field example_type_node "Species" "uuid" "animal_uuid" "Animal_OfSpecies" "out"
    = Merged new_node /\
    node_name new_node = node_name example_type_node.
Proof.
  eexists. split; [reflexivity |].
  apply (add_edge_field_result example_type_node _ "Species" "uuid" "animal_uuid"
           "Animal_OfSpecies" "out").
  reflexivity.
Defined.

Lemma existsb_field_name (name : string) (fields : list FieldDefinitionNode) :
  existsb (fun field => bool_decide (field_node_name field = name)) fields = true <->
  name ∈ map field_node_name fields.
Proof.
  induction fields as [|f fields IH]; simpl.
  - split; [discriminate | intros H; inversion H].
  - rewrite orb_true_iff, IH, elem_of_cons, bool_decide_eq_true. split; intros [H | H]; auto.
Qed.

(** X21. [_add_edge_field] never gives a type two fields of the same name:
    if the names of the fields are pairwise distinct before the call they
    are so after it, and adding the same edge in the same direction to the
    returned node raises the name-conflict error. *)
Theorem add_edge_field_no_duplicate (source_type_node new_node : TypeDefinitionNode)
    (sink_type_name source_field_name sink_field_name edge_name direction : string) :
  _add_edge_field source_type_node sink_type_name source_field_name sink_field_name
    edge_name direction = Merged new_node ->
  (NoDup (map field_node_name (node_fields source_type_node)) ->
   NoDup (map field_node_name (node_fields new_node))) /\
  forall sink_type_name' source_field_name' sink_field_name',
    _add_edge_field new_node sink_type_name' source_field_name' sink_field_name'
      edge_name direction = MergeRaise SchemaNameConflictError.
Proof.
  intros H. apply add_edge_field_Merged in H as (Hdir & Hfresh & Hname & Hfields).
  split.
  - intros Hnodup. rewrite Hfields, map_app. simpl.
    apply NoDup_app. split; [exact Hnodup |]. split; [| apply NoDup_singleton].
    intros name Hin ->%list_elem_of_singleton.
    apply existsb_field_name in Hin. congruence.
  - intros sink_type_name' source_field_name' sink_field_name'.
    unfold _add_edge_field.
    replace (bool_decide (direction = OUTBOUND_EDGE_DIRECTION)
             || bool_decide (direction = INBOUND_EDGE_DIRECTION)) with true
      by (symmetry; destruct Hdir as [-> | ->]; reflexivity).
    simpl. rewrite Hfields.
    rewrite (proj2 (existsb_field_name _ _)); [reflexivity |].
    rewrite map_app. apply elem_of_app. right. by left.
Qed.

Lemma add_edge_field_no_duplicate_witness :
  exists new_node,
    _add_edge_field example_type_node "Species" "uuid" "animal_uuid" "Animal_OfSpecies" "out"
    = Merged new_node /\
    _add_edge_field new_node "Species" "uuid" "animal_uuid" "Animal_OfSpecies" "out"
    = MergeRaise SchemaNameConflictError.
Proof.
  eexists. split; [reflexivity |].
  apply (add_edge_field_no_duplicate example_type_node _ "Species" "uuid" "animal_uuid"
           "Animal_OfSpecies" "out" eq_refl).
Defined.

(** ** Meta fields *)

Lemma insert_meta_fields_into_type_cases (root_type_name type_name : string)
    (type_obj : GraphQLType) :
  insert_meta_fields_into_type root_type_name type_name type_obj
  = if has_meta_field_already root_type_name (type_name, type_obj) then (type_obj, false)
    else ((with_meta_fields root_type_name (type_name, type_obj)).2, true).
Proof.
  unfold insert_meta_fields_into_type, has_meta_field_already, with_meta_fields,
    takes_meta_fields. simpl.
  destruct (String.prefix "__" type_name || bool_decide (type_name = root_type_name));
    simpl; [reflexivity |].
  destruct type_obj as [fields | fields |]; simpl; try reflexivity;
    destruct (bool_decide (is_Some (fields !! COUNT_META_FIELD_NAME))); reflexivity.
Qed.

Lemma with_meta_fields_name (root_type_name : string) (entry : string * GraphQLType) :
  (with_meta_fields root_type_name entry).1 = entry.1.
Proof. unfold with_meta_fields. by destruct (takes_meta_fields root_type_name entry). Qed.

Lemma insert_meta_fields_loop_returns (root_type_name : string)
    (types : list (string * GraphQLType)) :
  existsb (has_meta_field_already root_type_name) types = false ->
  insert_meta_fields_loop root_type_name types
  = (map (with_meta_fields root_type_name) types, true).
Proof.
  induction types as [|[type_name type_obj] rest IH]; intros Hnone; [reflexivity |].
  simpl in Hnone. apply orb_false_elim in Hnone as [Hentry Hrest].
  simpl. rewrite insert_meta_fields_into_type_cases, Hentry, (IH Hrest).
  pose proof (with_meta_fields_name root_type_name (type_name, type_obj)) as Hname.
  destruct (with_meta_fields root_type_name (type_name, type_obj)). simpl in *. by subst.
Qed.

Lemma insert_meta_fields_loop_raises (root_type_name : string)
    (pre : list (string * GraphQLType)) (entry : string * GraphQLType)
    (post : list (string * GraphQLType)) :
  existsb (has_meta_field_already root_type_name) pre = false ->
  has_meta_field_already root_type_name entry = true ->
  insert_meta_fields_loop root_type_name (pre ++ entry :: post)
  = (map (with_meta_fields root_type_name) pre ++ entry :: post, false).
Proof.
  intros Hpre Hentry. induction pre as [|[type_name type_obj] pre IH].
  - destruct entry as [type_name type_obj]. simpl.
    by rewrite insert_meta_fields_into_type_cases, Hentry.
  - simpl in Hpre. apply orb_false_elim in Hpre as [Hhead Hpre].
    simpl. rewrite insert_meta_fields_into_type_cases, Hhead, (IH Hpre).
    pose proof (with_meta_fields_name root_type_name (type_name, type_obj)) as Hname.
    destruct (with_meta_fields root_type_name (type_name, type_obj)). simpl in *. by subst.
Qed.

Lemma insert_meta_fields_loop_returned (root_type_name : string)
    (types : list (string * GraphQLType)) :
  (insert_meta_fields_loop root_type_name types).2
  = negb (existsb (has_meta_field_already root_type_name) types).
Proof.
  induction types as [|[type_name type_obj] rest IH]; [reflexivity |].
  simpl. rewrite insert_meta_fields_into_type_cases.
  destruct (has_meta_field_already root_type_name (type_name, type_obj)); [reflexivity |].
  destruct (insert_meta_fields_loop root_type_name rest). simpl in *. exact IH.
Qed.

(** X22. The call returns exactly when no object type or interface it would
    extend already has a field named [_x_count]; it then has added that
    field, of type Int, to each of them, and has left alone the query type,
    the types whose name starts with two underscores and the types that are
    neither object types nor interfaces. *)
Theorem insert_meta_fields_returns (graphql_schema : GraphQLSchema) :
  ((insert_meta_fields_into_existing_schema graphql_schema).2 = true <->
   existsb (has_meta_field_already (query_type_name graphql_schema))
     (type_map graphql_schema) = false) /\
  ((insert_meta_fields_into_existing_schema graphql_schema).2 = true ->
   (insert_meta_fields_into_existing_schema graphql_schema).1
   = {| query_type_name := query_type_name graphql_schema;
        type_map := map (with_meta_fields (query_type_name graphql_schema))
                        (type_map graphql_schema) |}).
Proof.
  unfold insert_meta_fields_into_existing_schema.
  pose proof (insert_meta_fields_loop_returned (query_type_name graphql_schema)
                (type_map graphql_schema)) as Hret.
  destruct (existsb _ (type_map graphql_schema)) eqn:E.
  - destruct (insert_meta_fields_loop _ _) as [new_types returned]. simpl in *.
    subst returned. split; [split |]; discriminate.
  - rewrite (insert_meta_fields_loop_returns _ _ E). simpl. done.
Qed.

Lemma insert_meta_fields_returns_witness :
  (insert_meta_fields_into_existing_schema example_schema).2 = true /\
  (insert_meta_fields_into_existing_schema example_schema).1
  = {| query_type_name := query_type_name example_schema;
       type_map := map (with_meta_fields (query_type_name example_schema))
                       (type_map example_schema) |}.
Proof.
  split; [reflexivity |].
  apply (proj2 (insert_meta_fields_returns example_schema)). reflexivity.
Defined.

(** X23. When the call raises, the schema is left half changed: the types
    before the first one that already has a [_x_count] field have received
    the field, and that type and the ones after it are as they were. *)
Theorem insert_meta_fields_raises (root_type_name : string)
    (pre : list (string * GraphQLType)) (entry : string * GraphQLType)
    (post : list (string * GraphQLType)) :
  existsb (has_meta_field_already root_type_name) pre = false ->
  has_meta_field_already root_type_name entry = true ->
  insert_meta_fields_into_existing_schema
    {| query_type_name := root_type_name; type_map := pre ++ entry :: post |}
  = ({| query_type_name := root_type_name;
        type_map := map (with_meta_fields root_type_name) pre ++ entry :: post |}, false).
Proof.
  intros Hpre Hentry. unfold insert_meta_fields_into_existing_schema. simpl.
  by rewrite (insert_meta_fields_loop_raises root_type_name pre entry post Hpre Hentry).
Qed.

Lemma insert_meta_fields_raises_witness :
  existsb (has_meta_field_already "RootSchemaQuery")
    [ ("Animal", GraphQLObjectType {[ "name" := "String" ]}) ] = false /\
  has_meta_field_already "RootSchemaQuery"
    ("Species", GraphQLObjectType {[ "_x_count" := "Int" ]}) = true /\
  insert_meta_fields_into_existing_schema
    {| query_type_name := "RootSchemaQuery";
       type_map := [ ("Animal", GraphQLObjectType {[ "name" := "String" ]}) ]
                   ++ ("Species", GraphQLObjectType {[ "_x_count" := "Int" ]})
                   :: [ ("Entity", GraphQLInterfaceType {[ "uuid" := "ID" ]}) ] |}
  = ({| query_type_name := "RootSchemaQuery";
        type_map := map (with_meta_fields "RootSchemaQuery")
                      [ ("Animal", GraphQLObjectType {[ "name" := "String" ]}) ]
                    ++ ("Species", GraphQLObjectType {[ "_x_count" := "Int" ]})
                    :: [ ("Entity", GraphQLInterfaceType {[ "uuid" := "ID" ]}) ] |}, false).
Proof.
  split; [reflexivity |]. split; [reflexivity |].
  apply (insert_meta_fields_raises "RootSchemaQuery"); reflexivity.
Defined.

Lemma with_meta_fields_again (root_type_name : string) (entry : string * GraphQLType) :
  takes_meta_fields root_type_name entry = true ->
  has_meta_field_already root_type_name (with_meta_fields root_type_name entry) = true.
Proof.
  intros Htakes. unfold with_meta_fields. rewrite Htakes.
  unfold has_meta_field_already, takes_meta_fields in *. simpl.
  apply andb_prop in Htakes as [Hname Hkind]. rewrite Hname. simpl.
  destruct entry as [type_name [fields | fields |]]; simpl in *; try discriminate;
    apply bool_decide_eq_true; rewrite lookup_insert_eq; eauto.
Qed.

Lemma insert_meta_fields_loop_again (root_type_name : string)
    (types : list (string * GraphQLType)) :
  insert_meta_fields_loop root_type_name (map (with_meta_fields root_type_name) types)
  = (map (with_meta_fields root_type_name) types,
     negb (existsb (takes_meta_fields root_type_name) types)).
Proof.
  induction types as [|[type_name type_obj] rest IH]; [reflexivity |].
  destruct (takes_meta_fields root_type_name (type_name, type_obj)) eqn:Htakes.
  - pose proof (with_meta_fields_again root_type_name (type_name, type_obj) Htakes) as Hhas.
    pose proof (with_meta_fields_name root_type_name (type_name, type_obj)) as Hname.
    cbn [map existsb]. rewrite Htakes.
    destruct (with_meta_fields root_type_name (type_name, type_obj)) as [n t] eqn:E.
    simpl in Hname. subst n. simpl.
    by rewrite insert_meta_fields_into_type_cases, Hhas.
  - assert (Hsame : with_meta_fields root_type_name (type_name, type_obj)
                    = (type_name, type_obj)).
    { unfold with_meta_fields. by rewrite Htakes. }
    assert (Hhas : has_meta_field_already root_type_name (type_name, type_obj) = false).
    { unfold has_meta_field_already. by rewrite Htakes. }
    cbn [map existsb]. rewrite Htakes, Hsame. cbn [insert_meta_fields_loop].
    rewrite insert_meta_fields_into_type_cases, Hhas, Hsame, IH. reflexivity.
Qed.

(** X24. The meta fields cannot be added twice: after a call that returned,
    a second call raises as soon as the schema has one object type or
    interface that takes meta fields, and leaves the schema as the first
    call left it. *)
Theorem insert_meta_fields_twice (graphql_schema : GraphQLSchema) :
  (insert_meta_fields_into_existing_schema graphql_schema).2 = true ->
  existsb (takes_meta_fields (query_type_name graphql_schema)) (type_map graphql_schema)
  = true ->
  insert_meta_fields_into_existing_schema
    (insert_meta_fields_into_existing_schema graphql_schema).1
  = ((insert_meta_fields_into_existing_schema graphql_schema).1, false).
Proof.
  intros Hreturned Htakes.
  pose proof (insert_meta_fields_loop_returned (query_type_name graphql_schema)
                (type_map graphql_schema)) as Hret.
  unfold insert_meta_fields_into_existing_schema in *.
  destruct (existsb (has_meta_field_already _) (type_map graphql_schema)) eqn:E.
  - destruct (insert_meta_fields_loop _ (type_map graphql_schema)). simpl in *. congruence.
  - rewrite (insert_meta_fields_loop_returns _ _ E). simpl.
    by rewrite insert_meta_fields_loop_again, Htakes.
Qed.

Lemma insert_meta_fields_twice_witness :
  (insert_meta_fields_into_existing_schema example_schema).2 = true /\
  existsb (takes_meta_fields (query_type_name example_schema)) (type_map example_schema)
  = true /\
  insert_meta_fields_into_existing_schema
    (insert_meta_fields_into_existing_schema example_schema).1
  = ((insert_meta_fields_into_existing_schema example_schema).1, false).
Proof.
  split; [reflexivity |]. split; [reflexivity |].
  apply (insert_meta_fields_twice example_schema); reflexivity.
Defined.

(** ** Examples for the merged definitions *)

Lemma process_definitions_keep_names_apart_witness :
  ({[ "String"; "ID" ]} : gset string)
    ## dom ({[ "Animal" := "first" ]} : gmap string string) /\
  forall (generic_type schema_id : string) new_types (new_ast : list string),
    _process_generic_type_definition id generic_type schema_id {[ "String"; "ID" ]}
      {[ "Animal" := "first" ]} [ "Animal" ] = Merged (new_types, new_ast) ->
    ({[ "String"; "ID" ]} : gset string) ## dom new_types /\
    new_types !! generic_type = Some schema_id /\
    ({[ "Animal" := "first" ]} : gmap string string) ⊆ new_types.
Proof.
  assert (Hapart : ({[ "String"; "ID" ]} : gset string)
                     ## dom ({[ "Animal" := "first" ]} : gmap string string)).
  { apply (bool_decide_unpack _). vm_compute. exact I. }
  split; [exact Hapart |].
  apply (proj2 (process_definitions_keep_names_apart id {[ "String"; "ID" ]}
                  {[ "Animal" := "first" ]} [ "Animal" ] Hapart)).
Defined.

Lemma process_definitions_merge_a_name_once_witness :
  exists new_types new_ast,
    _process_generic_type_definition id "Species" "second" ({[ "String"; "ID" ]} : gset string)
      {[ "Animal" := "first" ]} [ "Animal" ] = Merged (new_types, new_ast) /\
    id "Species" = id "Species" /\
    _process_generic_type_definition id "Species" "third" ({[ "String"; "ID" ]} : gset string)
      new_types new_ast = MergeRaise SchemaNameConflictError /\
    _process_scalar_definition id "Species" ({[ "String"; "ID" ]} : gset string)
      new_types new_ast = MergeRaise SchemaNameConflictError.
Proof.
  eexists _, _. split; [reflexivity |]. split; [reflexivity |].
  eapply (proj1 (process_definitions_merge_a_name_once id {[ "String"; "ID" ]}
                   {[ "Animal" := "first" ]} [ "Animal" ]) "Species" "second");
    reflexivity.
Defined.

Lemma process_directive_definition_again_witness :
  exists new_directives new_ast,
    _process_directive_definition fst snd ("stitch", "directive @stitch on FIELD")
      (∅ : gmap string (string * string)) [] = Merged (new_directives, new_ast) /\
    _process_directive_definition fst snd ("stitch", "directive @stitch on FIELD")
      new_directives new_ast = Merged (new_directives, new_ast).
Proof.
  eexists _, _. split; [reflexivity |].
  eapply (process_directive_definition_again fst snd
            ("stitch", "directive @stitch on FIELD") ∅ _ []).
  reflexivity.
Defined.

(** ** Pass 1: which fault is raised *)

Lemma insert_after_good_prefix (qmt : QueryMetadataTable)
    (pre out_pre : list Block) (block : Block) (post : list Block) :
  is_traversal block = true ->
  insert_explicit_type_bounds pre qmt = Ok out_pre ->
  insert_explicit_type_bounds (pre ++ block :: post) qmt
  = new_rest ← insert_explicit_type_bounds (block :: post) qmt; Ok (out_pre ++ new_rest).
Proof.
  intros Hb. remember (insert_explicit_type_bounds (block :: post) qmt) as r eqn:Hr.
  revert out_pre. induction pre as [|x pre IH]; intros out_pre Hpre.
  - injection Hpre as <-. simpl app. rewrite <- Hr. by destruct r.
  - apply insert_cons_Ok in Hpre as (appended & new_pre & Happ & Hpre & ->).
    rewrite <- app_comm_cons.
    change (insert_explicit_type_bounds (x :: pre ++ block :: post) qmt)
      with (appended' ← (if is_traversal x
                         then type_bound_for qmt (pre ++ block :: post) else Ok []);
            new_rest ← insert_explicit_type_bounds (pre ++ block :: post) qmt;
            Ok (x :: appended' ++ new_rest)).
    replace (if is_traversal x then type_bound_for qmt (pre ++ block :: post) else Ok [])
      with (@Ok (list Block) appended).
    + rewrite (IH new_pre Hpre). destruct r as [new_rest|e]; [| reflexivity].
      cbn. by rewrite app_assoc.
    + destruct (is_traversal x); [| by rewrite Happ].
      symmetry. by apply type_bound_for_before_traversal.
Qed.

(** X25. The fault raised is the one of the first offending block: if the
    blocks before a Traverse, Fold or Recurse block are in order, the pass
    raises the fault "expected only CoerceType and Filter blocks" when the
    Filters after the block are followed by another kind of block, and the
    fault "illegal IR blocks" when they are followed by nothing. *)
Theorem insert_explicit_type_bounds_fault (qmt : QueryMetadataTable)
    (pre out_pre : list Block) (block : Block) (filters : list Block) :
  insert_explicit_type_bounds pre qmt = Ok out_pre ->
  is_traversal block = true ->
  forallb is_filter filters = true ->
  (forall other post,
     is_unexpected other = true ->
     insert_explicit_type_bounds (pre ++ block :: filters ++ other :: post) qmt
     = Raise UnexpectedBlock) /\
  insert_explicit_type_bounds (pre ++ block :: filters) qmt = Raise IllegalIRBlocks.
Proof.
  intros Hpre Hb Hfs. split.
  - intros other post Hother.
    rewrite (insert_after_good_prefix qmt pre out_pre block _ Hb Hpre).
    simpl. rewrite Hb. unfold type_bound_for.
    rewrite lookup_next_filters by exact Hfs.
    destruct other; try discriminate; reflexivity.
  - rewrite (insert_after_good_prefix qmt pre out_pre block _ Hb Hpre).
    simpl. rewrite Hb. unfold type_bound_for.
    rewrite <- (app_nil_r filters), lookup_next_filters by exact Hfs. reflexivity.
Qed.

Lemma insert_explicit_type_bounds_fault_witness :
  insert_explicit_type_bounds [QueryRoot; MarkLocation loc_A] example_metadata
  = Ok [QueryRoot; MarkLocation loc_A] /\
  is_traversal (Traverse "out" "Animal_ParentOf" true) = true /\
  forallb is_filter [name_filter] = true /\
  insert_explicit_type_bounds
    ([QueryRoot; MarkLocation loc_A] ++ Traverse "out" "Animal_ParentOf" true :: [name_filter])
    example_metadata = Raise IllegalIRBlocks.
Proof.
  split; [reflexivity |]. split; [reflexivity |]. split; [reflexivity |].
  apply (insert_explicit_type_bounds_fault example_metadata
           [QueryRoot; MarkLocation loc_A] [QueryRoot; MarkLocation loc_A]
           (Traverse "out" "Animal_ParentOf" true) [name_filter]);
    reflexivity.
Defined.
